(** * GitHub release monitor: the release-tracking core

    A shallow embedding of [github_release_monitor.py]: the persisted
    history model ([Release], [RepoConfig], [ReleaseHistory]), the
    tracker operations of [GitHubReleaseAgent] ([_load_history],
    [_save_history], [_get_repo_index], [_ensure_repo_exists],
    [get_releases], [check_for_new_releases], [check_all_repositories])
    and the orchestration of [ReleaseMonitorOrchestrator] ([initialize],
    the body of the [while True] loop of [start_monitoring]).

    Python objects mutated in place are modelled by explicit state
    passing in a state-and-exception monad; the outside world (HTTP API,
    wall clock, language model, mail tool and its workbench, file parser)
    is a record of oracles indexed by a logical clock that ticks at every
    external call, so that two calls may observe different answers. The
    records answered by the HTTP API are JSON objects whose keys may be
    absent or hold [null], and the constructor of [Release] validates what
    it is given. *)

From Stdlib Require Import ZArith String Ascii Bool Lia.
From stdpp Require Import base list strings.

Local Open Scope Z_scope.

(** ** Data model *)

(** [class Release(BaseModel)] *)
Module Release.
Record t : Type := mk {
  id : Z;
  tag_name : string;
  name : string;
  published_at : string;
  html_url : string;
  body : option string
}.
End Release.

(** [class RepoConfig(BaseModel)]: [latest_check] defaults to [None],
    [releases] to the empty list. *)
Module RepoConfig.
Record t : Type := mk {
  owner : string;
  repo : string;
  latest_check : option string;
  releases : list Release.t
}.

(** [RepoConfig(owner=owner, repo=repo)] *)
Definition new (owner repo : string) : t := mk owner repo None [].

(** [rc.latest_check = ts] *)
Definition set_latest_check (ts : string) (rc : t) : t :=
  mk (owner rc) (repo rc) (Some ts) (releases rc).

(** [rc.releases.append(release)] *)
Definition append_release (release : Release.t) (rc : t) : t :=
  mk (owner rc) (repo rc) (latest_check rc) (releases rc ++ [release]).
End RepoConfig.

(** [class ReleaseHistory(BaseModel)] *)
Module ReleaseHistory.
Record t : Type := mk { repositories : list RepoConfig.t }.

(** [ReleaseHistory()] *)
Definition empty : t := mk [].
End ReleaseHistory.

(** What a JSON object of the releases API holds under a key whose schema is
    a string or null: the key may be absent, hold [null], or hold a
    string. A draft release holds [null] under [published_at], an untitled
    one under [name]. *)
Inductive JsonField : Type :=
| Absent
| Null
| Str (s : string).

(** The same for the integer key [id]. *)
Inductive JsonId : Type :=
| NoId
| NullId
| Id (z : Z).

(** One element of the JSON array answered by the releases API, as read by
    [check_for_new_releases]: the keys [id], [tag_name], [name],
    [published_at] and [html_url] are read with [release_data[...]], the key
    [body] with [.get('body', '')]. *)
Module RawRelease.
Record t : Type := mk {
  id : JsonId;
  tag_name : JsonField;
  name : JsonField;
  published_at : JsonField;
  html_url : JsonField;
  body : JsonField
}.
End RawRelease.

(** ** Exceptions, events and the world *)

(** The subclasses of [Exception] that the modelled code can meet. The
    asynchronous [KeyboardInterrupt] is outside the model. *)
Inductive exn : Type :=
| IndexError
| KeyError (key : string)
| ValidationError
| AssertionError
| RequestException (msg : string)
| OSError (msg : string)
| ValueError (msg : string)
| RuntimeError (msg : string).

Inductive result (A : Type) : Type :=
| Ok (a : A)
| Raise (e : exn).
Arguments Ok {A} a.
Arguments Raise {A} e.

(** The state of the history file named by [self.history_file]. *)
Inductive File : Type :=
| NoFile
| Unreadable (e : exn)
| Content (text : string).

(** Answer of [requests.get(...)], [raise_for_status()] and
    [response.json()] taken together. *)
Inductive Response : Type :=
| Json (releases_data : list RawRelease.t)
| RequestFailed (msg : string).

(** Answer of [self._model_client.create(...)]: it may raise, and the
    [content] of its result may be something other than a [str]. *)
Inductive LlmOutcome : Type :=
| LlmContent (content : string)
| LlmNotStr
| LlmRaises (e : exn).

(** Answer of [self._workbench.call_tool("send_email", ...)]. *)
Inductive ToolOutcome : Type :=
| ToolResult (is_error : bool) (text : string)
| ToolRaises (e : exn).

(** What [send_notification] builds its [EmailPayload] from. The payload is
    a function of these five values; its subject, its text body (the
    content with HTML tags replaced) and its HTML body are not modelled, and
    nothing below is stated about them. *)
Record EmailRequest : Type := mkEmail {
  email_to : string;
  email_owner : string;
  email_repo : string;
  email_release : Release.t;
  email_content : string
}.

(** Observable effects, oldest first in a trace. Of the [print] calls only
    those that report a failure are recorded. *)
Inductive Event : Type :=
| ESaved (h : ReleaseHistory.t)
| ELlmCall (owner repo : string) (release : Release.t)
| EToolCall (req : EmailRequest)
| ESleep (seconds : Z)
| EClosed
| EWorkbenchStopped
| ELogLoadError (e : exn)
| ELogFetchError (owner repo : string) (msg : string)
| ELogEmailError (text : string)
| ELogEmailFailed (e : exn).

Record World : Type := mkWorld {
  requests_get : nat -> string -> string -> Response;
  datetime_now : nat -> string;
  model_client_create : nat -> string -> string -> Release.t -> LlmOutcome;
  call_tool : nat -> EmailRequest -> ToolOutcome;
  (** [json.load(f)] followed by the validating [ReleaseHistory] constructor *)
  parse_history : string -> result ReleaseHistory.t;
  (** [json.dump(self.history.model_dump(), ...)] *)
  dump_history : ReleaseHistory.t -> string;
  (** Entering [McpWorkbench(self.gmail_mcp_server)], which starts the mail
      server: the exception it raises, if any *)
  workbench_start : nat -> option exn
}.

(** [history] is [self.history] of the one [GitHubReleaseAgent]. *)
Record State : Type := mkState {
  history : ReleaseHistory.t;
  disk : File;
  clock : nat;
  trace : list Event
}.

Definition set_history (h : ReleaseHistory.t) (st : State) : State :=
  mkState h (disk st) (clock st) (trace st).
Definition set_disk (f : File) (st : State) : State :=
  mkState (history st) f (clock st) (trace st).
Definition tick (st : State) : State :=
  mkState (history st) (disk st) (S (clock st)) (trace st).
Definition emit (ev : Event) (st : State) : State :=
  mkState (history st) (disk st) (clock st) (trace st ++ [ev]).

(** ** The state and exception monad *)

Definition M (A : Type) : Type := State -> result A * State.

Definition ret {A} (a : A) : M A := fun st => (Ok a, st).
Definition raise {A} (e : exn) : M A := fun st => (Raise e, st).
Definition bind {A B} (m : M A) (k : A -> M B) : M B :=
  fun st =>
    match m st with
    | (Ok a, st') => k a st'
    | (Raise e, st') => (Raise e, st')
    end.

(** [try: body  except Exception as e: handler(e)] *)
Definition try_except {A} (body : M A) (handler : exn -> M A) : M A :=
  fun st =>
    match body st with
    | (Ok a, st') => (Ok a, st')
    | (Raise e, st') => handler e st'
    end.

(** [try: body  finally: cleanup], for a body left only by an exception. *)
Definition on_exception {A} (body : M A) (cleanup : M unit) : M A :=
  try_except body (fun e => bind cleanup (fun _ => raise e)).

Definition get_history : M ReleaseHistory.t := fun st => (Ok (history st), st).
Definition put_history (h : ReleaseHistory.t) : M unit :=
  fun st => (Ok tt, set_history h st).
Definition log (ev : Event) : M unit := fun st => (Ok tt, emit ev st).

Notation "'let!' x ':=' c1 'in' c2" := (bind c1 (fun x => c2))
  (at level 10, x name, c1 at level 100, c2 at level 200).

Definition eval {A} (m : M A) (st : State) : result A := fst (m st).
Definition exec {A} (m : M A) (st : State) : State := snd (m st).

(** ** Python list primitives *)

(** [x in xs] on a list of integers. *)
Fixpoint py_in (x : Z) (xs : list Z) : bool :=
  match xs with
  | [] => false
  | y :: ys => (x =? y) || py_in x ys
  end.

(** The position designated by [xs[i]]: negative indices count from the
    end, anything outside [-len, len) is an [IndexError]. *)
Definition py_position {A} (xs : list A) (i : Z) : option nat :=
  let n := Z.of_nat (length xs) in
  if (0 <=? i) && (i <? n) then Some (Z.to_nat i)
  else if (- n <=? i) && (i <? 0) then Some (Z.to_nat (n + i))
  else None.

(** [x in xs] for an [x] that is an integer or [None]. *)
Definition py_in_opt (x : option Z) (xs : list Z) : bool :=
  match x with
  | Some z => py_in z xs
  | None => false
  end.

(** [release_data[key]] for a key holding a string or null: a missing key
    is a [KeyError], [null] reads as [None]. *)
Definition subscript (key : string) (field : JsonField) : result (option string) :=
  match field with
  | Absent => Raise (KeyError key)
  | Null => Ok None
  | Str s => Ok (Some s)
  end.

(** [release_data['id']] *)
Definition subscript_id (field : JsonId) : result (option Z) :=
  match field with
  | NoId => Raise (KeyError "id")
  | NullId => Ok None
  | Id z => Ok (Some z)
  end.

(** [release_data.get('body', '')] *)
Definition get_body (field : JsonField) : option string :=
  match field with
  | Absent => Some ""%string
  | Null => None
  | Str s => Some s
  end.

(** [release_data['name'] or release_data['tag_name']]: the tag is read
    only when the name is [None] or empty. *)
Definition name_or_tag (release_data : RawRelease.t) : result (option string) :=
  match subscript "name" (RawRelease.name release_data) with
  | Raise e => Raise e
  | Ok None => subscript "tag_name" (RawRelease.tag_name release_data)
  | Ok (Some s) =>
      if String.eqb s ""%string
      then subscript "tag_name" (RawRelease.tag_name release_data)
      else Ok (Some s)
  end.

(** The validation run by the constructor of [Release] on arguments that
    are an integer or [None] and strings or [None]: [id], [tag_name],
    [name], [published_at] and [html_url] must not be [None]. *)
Definition Release_validate (id : option Z)
    (tag_name name published_at html_url body : option string)
  : result Release.t :=
  match id, tag_name, name, published_at, html_url with
  | Some i, Some t, Some n, Some p, Some u => Ok (Release.mk i t n p u body)
  | _, _, _, _, _ => Raise ValidationError
  end.

(** [re.sub(pat, '', s)] for a literal, non-empty pattern: every
    non-overlapping occurrence, scanning left to right, is removed. [skip]
    counts the characters of a matched occurrence still to be dropped. *)
Fixpoint re_sub_remove (pat : string) (skip : nat) (s : string) : string :=
  match s with
  | EmptyString => EmptyString
  | String c s' =>
      match skip with
      | S k => re_sub_remove pat k s'
      | O =>
          if String.prefix pat s
          then re_sub_remove pat (Nat.pred (String.length pat)) s'
          else String c (re_sub_remove pat O s')
      end
  end.

(** The two [re.sub] calls that strip code fences. *)
Definition strip_fences (s : string) : string :=
  re_sub_remove "```"%string O (re_sub_remove "```html"%string O s).

(** [r] then [k], for a computation that only returns or raises. *)
Definition and_then {A B} (r : result A) (k : A -> result B) : result B :=
  match r with
  | Ok a => k a
  | Raise e => Raise e
  end.

(** [Release(id=..., tag_name=..., name=... or ..., ...)] as built in
    [check_for_new_releases]: the arguments are read in order, a missing
    key raising [KeyError], and then validated. *)
Definition make_release (release_data : RawRelease.t) : result Release.t :=
  and_then (subscript_id (RawRelease.id release_data)) (fun id =>
  and_then (subscript "tag_name" (RawRelease.tag_name release_data)) (fun tag_name =>
  and_then (name_or_tag release_data) (fun name =>
  and_then (subscript "published_at" (RawRelease.published_at release_data))
    (fun published_at =>
  and_then (subscript "html_url" (RawRelease.html_url release_data)) (fun html_url =>
  Release_validate id tag_name name published_at html_url
    (get_body (RawRelease.body release_data))))))).

(** The loop of [_get_repo_index] over [enumerate(repositories)], entered
    at position [i]. *)
Fixpoint _get_repo_index_from (i : Z) (repositories : list RepoConfig.t)
    (owner repo : string) : Z :=
  match repositories with
  | [] => -1
  | repo_config :: rest =>
      if String.eqb (RepoConfig.owner repo_config) owner
         && String.eqb (RepoConfig.repo repo_config) repo
      then i
      else _get_repo_index_from (i + 1) rest owner repo
  end.

(** The configuration held by [ReleaseMonitorOrchestrator]. *)
Record Orchestrator : Type := mkOrchestrator {
  repositories : list (string * string);
  recipient_email : string;
  check_interval : Z
}.

Definition NewRelease : Type := (string * string * Release.t)%type.

Section Monitor.

Variable w : World.

(** *** GitHubReleaseAgent *)

(** [os.path.exists(history_file_path)] *)
Definition path_exists : M bool :=
  fun st => (Ok (match disk st with NoFile => false | _ => true end), st).

(** [open(history_file_path, 'r')] and reading it. *)
Definition read_file : M string :=
  fun st =>
    match disk st with
    | Content text => (Ok text, st)
    | Unreadable e => (Raise e, st)
    | NoFile => (Raise (OSError "No such file or directory"), st)
    end.

Definition lift {A} (r : result A) : M A := fun st => (r, st).

Definition _load_history : M ReleaseHistory.t :=
  let! found := path_exists in
  if found then
    try_except
      (let! text := read_file in
       let! history := lift (parse_history w text) in
       ret history)
      (fun e =>
         let! _ := log (ELogLoadError e) in
         ret ReleaseHistory.empty)
  else ret ReleaseHistory.empty.

(** [GitHubReleaseAgent.__init__]: [self.history = self._load_history()] *)
Definition agent_init : M unit :=
  let! h := _load_history in put_history h.

(** The write is taken to succeed. *)
Definition _save_history : M unit :=
  fun st =>
    (Ok tt,
     emit (ESaved (history st))
       (set_disk (Content (dump_history w (history st))) st)).

Definition _get_repo_index (owner repo : string) : M Z :=
  let! h := get_history in
  ret (_get_repo_index_from 0 (ReleaseHistory.repositories h) owner repo).

Definition _ensure_repo_exists (owner repo : string) : M Z :=
  let! index := _get_repo_index owner repo in
  if index =? -1 then
    let! h := get_history in
    let! _ := put_history
      (ReleaseHistory.mk
         (ReleaseHistory.repositories h ++ [RepoConfig.new owner repo])) in
    let! h' := get_history in
    ret (Z.of_nat (length (ReleaseHistory.repositories h')) - 1)
  else ret index.

(** [self.history.repositories[i]] *)
Definition repo_at (i : Z) : M RepoConfig.t :=
  fun st =>
    let repos := ReleaseHistory.repositories (history st) in
    match py_position repos i with
    | Some k =>
        match repos !! k with
        | Some rc => (Ok rc, st)
        | None => (Raise IndexError, st)
        end
    | None => (Raise IndexError, st)
    end.

(** An in-place change of [self.history.repositories[i]]. *)
Definition update_repo_at (i : Z) (f : RepoConfig.t -> RepoConfig.t) : M unit :=
  fun st =>
    let repos := ReleaseHistory.repositories (history st) in
    match py_position repos i with
    | Some k => (Ok tt, set_history (ReleaseHistory.mk (alter f k repos)) st)
    | None => (Raise IndexError, st)
    end.

Definition get_releases (owner repo : string) : M (list RawRelease.t) :=
  fun st =>
    match requests_get w (clock st) owner repo with
    | Json releases_data => (Ok releases_data, tick st)
    | RequestFailed msg =>
        (Ok [], emit (ELogFetchError owner repo msg) (tick st))
    end.

(** [datetime.now().isoformat()] *)
Definition now_isoformat : M string :=
  fun st => (Ok (datetime_now w (clock st)), tick st).

(** The [for release_data in releases_data] loop of
    [check_for_new_releases]; [new_releases] is the list built so far. Each
    branch first formats its [print], which reads the name or the tag. *)
Fixpoint scan_releases (owner repo : string) (repo_index : Z)
    (known_release_ids : list Z) (releases_data : list RawRelease.t)
    (new_releases : list NewRelease) : M (list NewRelease) :=
  match releases_data with
  | [] => ret new_releases
  | release_data :: rest =>
      let! id := lift (subscript_id (RawRelease.id release_data)) in
      if negb (py_in_opt id known_release_ids) then
        let! _ := lift (name_or_tag release_data) in
        let! release := lift (make_release release_data) in
        let new_releases' := new_releases ++ [(owner, repo, release)] in
        let! _ := update_repo_at repo_index (RepoConfig.append_release release) in
        scan_releases owner repo repo_index known_release_ids rest new_releases'
      else
        let! _ := lift (name_or_tag release_data) in
        scan_releases owner repo repo_index known_release_ids rest new_releases
  end.

Definition check_for_new_releases (owner repo : string) : M (list NewRelease) :=
  let! releases_data := get_releases owner repo in
  match releases_data with
  | [] => ret []
  | _ :: _ =>
      let! repo_index := _ensure_repo_exists owner repo in
      let! now := now_isoformat in
      let! _ := update_repo_at repo_index (RepoConfig.set_latest_check now) in
      let! repo_config := repo_at repo_index in
      let known_release_ids := map Release.id (RepoConfig.releases repo_config) in
      let! new_releases :=
        scan_releases owner repo repo_index known_release_ids releases_data [] in
      let! _ := match new_releases with
                | [] => ret tt
                | _ :: _ => _save_history
                end in
      ret new_releases
  end.

(** The loop of [check_all_repositories]; [all_new_releases] is the list
    built so far. *)
Fixpoint check_all_from (repos : list (string * string))
    (all_new_releases : list NewRelease) : M (list NewRelease) :=
  match repos with
  | [] => ret all_new_releases
  | (owner, repo) :: rest =>
      let! new_releases := check_for_new_releases owner repo in
      check_all_from rest (all_new_releases ++ new_releases)
  end.

Definition check_all_repositories (repos : list (string * string))
  : M (list NewRelease) :=
  check_all_from repos [].

(** *** ContentAnalysisAgent *)

Definition analyze_release (owner repo : string) (release : Release.t) : M string :=
  fun st =>
    let st' := emit (ELlmCall owner repo release) (tick st) in
    match model_client_create w (clock st) owner repo release with
    | LlmContent response => (Ok (strip_fences response), st')
    | LlmNotStr => (Raise AssertionError, st')
    | LlmRaises e => (Raise e, st')
    end.

(** *** EmailNotificationAgent *)

(** [await self._workbench.call_tool("send_email", ...)] *)
Definition workbench_call_tool (req : EmailRequest) : M (bool * string) :=
  fun st =>
    let st' := emit (EToolCall req) (tick st) in
    match call_tool w (clock st) req with
    | ToolResult is_error text => (Ok (is_error, text), st')
    | ToolRaises e => (Raise e, st')
    end.

Definition send_notification (recipient owner repo : string)
    (release : Release.t) (content_analysis : string) : M bool :=
  let clean_content := strip_fences content_analysis in
  let email_payload := mkEmail recipient owner repo release clean_content in
  try_except
    (let! result := workbench_call_tool email_payload in
     if fst result then
       let! _ := log (ELogEmailError (snd result)) in
       ret false
     else ret true)
    (fun e =>
       let! _ := log (ELogEmailFailed e) in
       ret false).

(** *** ReleaseMonitorOrchestrator *)

Variable self : Orchestrator.

Definition initialize : M unit :=
  let! init_releases := check_all_repositories (repositories self) in
  _save_history.

(** The [for owner, repo, release in new_releases] loop of
    [start_monitoring]. *)
Fixpoint notify_all (new_releases : list NewRelease) : M unit :=
  match new_releases with
  | [] => ret tt
  | (owner, repo, release) :: rest =>
      let! content_analysis := analyze_release owner repo release in
      let! _ := send_notification (recipient_email self) owner repo release
                  content_analysis in
      notify_all rest
  end.

(** [await asyncio.sleep(self.check_interval)] *)
Definition sleep : M unit :=
  fun st => (Ok tt, emit (ESleep (check_interval self)) (tick st)).

(** One pass through the body of [while True]. *)
Definition poll_cycle : M unit :=
  let! new_releases := check_all_repositories (repositories self) in
  let! _ := match new_releases with
            | [] => ret tt
            | _ :: _ => notify_all new_releases
            end in
  sleep.

(** The first [n] passes of [while True]. *)
Fixpoint while_true (n : nat) : M unit :=
  match n with
  | O => ret tt
  | S k => let! _ := poll_cycle in while_true k
  end.

(** Entering [async with McpWorkbench(self.gmail_mcp_server) as workbench] *)
Definition workbench_enter : M unit :=
  fun st =>
    match workbench_start w (clock st) with
    | None => (Ok tt, st)
    | Some e => (Raise e, st)
    end.

(** [start_monitoring], observed for [n] passes of its loop: [Ok] means the
    loop is still running, [Raise] that an exception left it. An exception
    of [initialize] or of entering the workbench leaves at once; one of the
    loop leaves after the [finally] clause closed the model client and the
    [async with] block stopped the workbench. [KeyboardInterrupt] is not
    modelled. *)
Definition start_monitoring (n : nat) : M unit :=
  let! _ := initialize in
  let! _ := workbench_enter in
  on_exception (on_exception (while_true n) (log EClosed))
    (log EWorkbenchStopped).

End Monitor.

(** *** The command line *)

(** [s.split(sep)] for a separator of one character. *)
Fixpoint py_split (sep : ascii) (s : string) : list string :=
  match s with
  | EmptyString => [EmptyString]
  | String c s' =>
      if Ascii.eqb c sep then EmptyString :: py_split sep s'
      else match py_split sep s' with
           | part :: parts => String c part :: parts
           | [] => [String c EmptyString]
           end
  end.

(** [s.count(c)] for one character. *)
Fixpoint py_count (c : ascii) (s : string) : nat :=
  match s with
  | EmptyString => O
  | String d s' => if Ascii.eqb d c then S (py_count c s') else py_count c s'
  end.

(** The loop of [main] over [args.repos]; [repositories] is the list built
    so far. An entry that does not split in two is reported and skipped. *)
Fixpoint parse_repositories_from (repos : list string)
    (repositories : list (string * string)) : list (string * string) :=
  match repos with
  | [] => repositories
  | repo_str :: rest =>
      match py_split "/" repo_str with
      | [owner; repo] =>
          parse_repositories_from rest (repositories ++ [(owner, repo)])
      | _ => parse_repositories_from rest repositories
      end
  end.

Definition parse_repositories (repos : list string) : list (string * string) :=
  parse_repositories_from repos [].

(** [f"{owner}/{repo}"] *)
Definition format_repository (r : string * string) : string :=
  (fst r ++ String "/" (snd r))%string.

(** The command line read by [main]; the token and the history file path
    select the release source and the file of the state. *)
Record Args : Type := mkArgs {
  args_repos : list string;
  args_email : string;
  args_interval : Z
}.

(** [main], with its monitoring observed for [n] passes of the loop. The
    orchestrator it builds creates the agent, which loads the history; the
    construction of the model client is taken to succeed. *)
Definition main (w : World) (args : Args) (n : nat) : M unit :=
  match parse_repositories (args_repos args) with
  | [] => ret tt
  | repositories =>
      let orchestrator :=
        mkOrchestrator repositories (args_email args) (args_interval args) in
      let! _ := agent_init w in
      start_monitoring w orchestrator n
  end.

(** ** Derived notions used in the statements *)

(** [rc] is the entry kept for [(owner, repo)]. *)
Definition has_key (owner repo : string) (rc : RepoConfig.t) : Prop :=
  RepoConfig.owner rc = owner /\ RepoConfig.repo rc = repo.

#[global] Instance has_key_dec owner repo rc : Decision (has_key owner repo rc).
Proof. unfold has_key. apply _. Defined.

#[global] Instance JsonId_eq_dec : EqDecision JsonId.
Proof. solve_decision. Defined.

(** The entry that the agent uses for [(owner, repo)]: the first one with
    that key, with its position. *)
Definition tracked (h : ReleaseHistory.t) (owner repo : string)
  : option (nat * RepoConfig.t) :=
  list_find (has_key owner repo) (ReleaseHistory.repositories h).

(** The known release identifiers of [(owner, repo)], in stored order: what
    [check_for_new_releases] computes as [known_release_ids]. An untracked
    repository knows nothing. *)
Definition known_ids (h : ReleaseHistory.t) (owner repo : string) : list Z :=
  match tracked h owner repo with
  | Some (_, rc) => map Release.id (RepoConfig.releases rc)
  | None => []
  end.

(** The stored releases of [(owner, repo)]. *)
Definition stored (h : ReleaseHistory.t) (owner repo : string) : list Release.t :=
  match tracked h owner repo with
  | Some (_, rc) => RepoConfig.releases rc
  | None => []
  end.

(** What the release source answers at time [t], with a failure read as the
    empty list, as [get_releases] does. *)
Definition source_at (w : World) (t : nat) (owner repo : string)
  : list RawRelease.t :=
  match requests_get w t owner repo with
  | Json releases_data => releases_data
  | RequestFailed _ => []
  end.

(** The list that a [get_releases] call started in state [st] obtains. *)
Definition fetched (w : World) (st : State) (owner repo : string)
  : list RawRelease.t :=
  source_at w (clock st) owner repo.

(** The release source answers the same data at all times. *)
Definition stable_source (w : World) : Prop :=
  forall t t' owner repo, source_at w t owner repo = source_at w t' owner repo.

(** The last-check timestamp kept for [(owner, repo)]. *)
Definition last_check (h : ReleaseHistory.t) (owner repo : string)
  : option string :=
  match tracked h owner repo with
  | Some (_, rc) => RepoConfig.latest_check rc
  | None => None
  end.

(** At most one entry per key. *)
Definition unique_keys (h : ReleaseHistory.t) : Prop :=
  NoDup (map (fun rc => (RepoConfig.owner rc, RepoConfig.repo rc))
           (ReleaseHistory.repositories h)).

(** The Summarizer and Notifier calls of a trace. *)
Definition is_pipeline_event (ev : Event) : bool :=
  match ev with
  | ELlmCall _ _ _ | EToolCall _ => true
  | _ => false
  end.

Definition pipeline_calls (tr : list Event) : list Event :=
  List.filter is_pipeline_event tr.

(** A fetched record is new when its identifier is not among [known]; an
    identifier that is [null] is among no integers. *)
Definition is_new (known : list Z) (release_data : RawRelease.t) : bool :=
  match RawRelease.id release_data with
  | Id z => negb (py_in z known)
  | NullId => true
  | NoId => false
  end.

(** A record with every key that the loop reads, holding what [Release]
    accepts: an integer [id], strings under [tag_name], [published_at] and
    [html_url], a string or [null] under [name]. *)
Definition well_formed (release_data : RawRelease.t) : bool :=
  match RawRelease.id release_data, RawRelease.tag_name release_data,
        RawRelease.name release_data, RawRelease.published_at release_data,
        RawRelease.html_url release_data with
  | Id _, Str _, (Null | Str _), Str _, Str _ => true
  | _, _, _, _, _ => false
  end.

(** The release source only ever answers well-formed records. *)
Definition well_formed_source (w : World) : Prop :=
  forall t owner repo release_data,
    release_data ∈ source_at w t owner repo -> well_formed release_data = true.

(** [release] carries the fields of the record [release_data]: its
    identifier, tag, publication time and URL are those of the record, its
    name is the record's name, or the tag when the name is [null] or empty,
    and its body is the record's, empty when the key is absent. *)
Definition carries (release_data : RawRelease.t) (release : Release.t) : Prop :=
  RawRelease.id release_data = Id (Release.id release)
  /\ RawRelease.tag_name release_data = Str (Release.tag_name release)
  /\ match RawRelease.name release_data with
     | Str s =>
         Release.name release
         = if String.eqb s ""%string then Release.tag_name release else s
     | Null => Release.name release = Release.tag_name release
     | Absent => False
     end
  /\ RawRelease.published_at release_data = Str (Release.published_at release)
  /\ RawRelease.html_url release_data = Str (Release.html_url release)
  /\ Release.body release
     = match RawRelease.body release_data with
       | Absent => Some ""%string
       | Null => None
       | Str s => Some s
       end.

(** The text under a key, empty unless the key holds a string. *)
Definition field_text (field : JsonField) : string :=
  match field with
  | Str s => s
  | _ => ""%string
  end.

(** The release that carries the fields of a well-formed record. *)
Definition release_of (release_data : RawRelease.t) : Release.t :=
  let tag_name := field_text (RawRelease.tag_name release_data) in
  Release.mk
    (match RawRelease.id release_data with Id z => z | _ => 0 end)
    tag_name
    (match RawRelease.name release_data with
     | Str s => if String.eqb s ""%string then tag_name else s
     | _ => tag_name
     end)
    (field_text (RawRelease.published_at release_data))
    (field_text (RawRelease.html_url release_data))
    (match RawRelease.body release_data with
     | Absent => Some ""%string
     | Null => None
     | Str s => Some s
     end).

(** The release that [make_release] returns, if it returns. *)
Definition make_release_opt (release_data : RawRelease.t) : option Release.t :=
  match make_release release_data with
  | Ok release => Some release
  | Raise _ => None
  end.

(** One turn of the loop of [check_for_new_releases] on a record: the
    release to append, nothing for a known record, or the exception that
    reading or validating the record raises. *)
Definition scan_step (known : list Z) (release_data : RawRelease.t)
  : result (option Release.t) :=
  and_then (subscript_id (RawRelease.id release_data)) (fun id =>
  if negb (py_in_opt id known) then
    and_then (name_or_tag release_data) (fun _ =>
    and_then (make_release release_data) (fun release => Ok (Some release)))
  else
    and_then (name_or_tag release_data) (fun _ => Ok None)).

(** The releases that the loop appends, in order, and the exception that
    stops it, if any. *)
Fixpoint scan_outcome (known : list Z) (releases_data : list RawRelease.t)
  : list Release.t * option exn :=
  match releases_data with
  | [] => ([], None)
  | release_data :: rest =>
      match scan_step known release_data with
      | Raise e => ([], Some e)
      | Ok None => scan_outcome known rest
      | Ok (Some release) =>
          (release :: fst (scan_outcome known rest),
           snd (scan_outcome known rest))
      end
  end.

(** [news] appended to the stored releases of an entry. *)
Definition extend (news : list Release.t) (rc : RepoConfig.t) : RepoConfig.t :=
  RepoConfig.mk (RepoConfig.owner rc) (RepoConfig.repo rc)
    (RepoConfig.latest_check rc) (RepoConfig.releases rc ++ news).

(** The position [_ensure_repo_exists] answers and the entries it leaves. *)
Definition ensured_index (h : ReleaseHistory.t) (owner repo : string) : nat :=
  match tracked h owner repo with
  | Some (k, _) => k
  | None => length (ReleaseHistory.repositories h)
  end.

Definition ensured (h : ReleaseHistory.t) (owner repo : string)
  : list RepoConfig.t :=
  match tracked h owner repo with
  | Some _ => ReleaseHistory.repositories h
  | None => ReleaseHistory.repositories h ++ [RepoConfig.new owner repo]
  end.

Definition tag (owner repo : string) (release : Release.t) : NewRelease :=
  (owner, repo, release).

(** The releases that [check_for_new_releases] appends in state [st],
    whether it then returns or raises. *)
Definition new_in (w : World) (owner repo : string) (st : State)
  : list Release.t :=
  fst (scan_outcome (known_ids (history st) owner repo)
         (fetched w st owner repo)).

(** The exception that leaves [check_for_new_releases] in state [st], if
    any. *)
Definition check_failure (w : World) (owner repo : string) (st : State)
  : option exn :=
  snd (scan_outcome (known_ids (history st) owner repo)
         (fetched w st owner repo)).

(** What [check_for_new_releases] returns or raises in state [st]. *)
Definition check_result (w : World) (owner repo : string) (st : State)
  : result (list NewRelease) :=
  match check_failure w owner repo st with
  | None => Ok (map (tag owner repo) (new_in w owner repo st))
  | Some e => Raise e
  end.

(** The state that [check_for_new_releases] leaves. *)
Definition after_check (w : World) (owner repo : string) (st : State) : State :=
  let st1 := exec (get_releases w owner repo) st in
  match fetched w st owner repo with
  | [] => st1
  | _ :: _ =>
      let news := new_in w owner repo st in
      let now := datetime_now w (clock st1) in
      let st2 :=
        set_history
          (ReleaseHistory.mk
             (alter (fun rc => extend news (RepoConfig.set_latest_check now rc))
                (ensured_index (history st) owner repo)
                (ensured (history st) owner repo)))
          (tick st1) in
      match news, check_failure w owner repo st with
      | _ :: _, None => exec (_save_history w) st2
      | _, _ => st2
      end
  end.

(** The state that [check_all_repositories] leaves: it stops at the first
    repository whose check raises. *)
Fixpoint after_all (w : World) (repos : list (string * string)) (st : State)
  : State :=
  match repos with
  | [] => st
  | (owner, repo) :: rest =>
      match check_failure w owner repo st with
      | None => after_all w rest (after_check w owner repo st)
      | Some _ => after_check w owner repo st
      end
  end.

(** The reports gathered by [check_all_repositories] up to there. *)
Fixpoint all_new (w : World) (repos : list (string * string)) (st : State)
  : list NewRelease :=
  match repos with
  | [] => []
  | (owner, repo) :: rest =>
      match check_failure w owner repo st with
      | None =>
          map (tag owner repo) (new_in w owner repo st)
          ++ all_new w rest (after_check w owner repo st)
      | Some _ => []
      end
  end.

(** The exception that leaves [check_all_repositories], if any. *)
Fixpoint all_failure (w : World) (repos : list (string * string)) (st : State)
  : option exn :=
  match repos with
  | [] => None
  | (owner, repo) :: rest =>
      match check_failure w owner repo st with
      | None => all_failure w rest (after_check w owner repo st)
      | Some e => Some e
      end
  end.

(** What [check_all_repositories] returns or raises. *)
Definition all_result (w : World) (repos : list (string * string)) (st : State)
  : result (list NewRelease) :=
  match all_failure w repos st with
  | None => Ok (all_new w repos st)
  | Some e => Raise e
  end.

(** Every repository's stored releases in [st] are kept, in place, at the
    front of its stored releases in [st']. *)
Definition grows (st st' : State) : Prop :=
  forall owner repo,
    stored (history st) owner repo `prefix_of` stored (history st') owner repo.

(** A computation whose final state, returned or raised from, grows. *)
Definition growing {A} (m : M A) : Prop := forall st, grows st (snd (m st)).

(** A record that the loop can skip: its identifier is an integer and the
    [print] of its name or tag raises nothing. *)
Definition readable (release_data : RawRelease.t) (z : Z) : Prop :=
  RawRelease.id release_data = Id z
  /\ exists shown, name_or_tag release_data = Ok shown.

(** Every record that the source holds for a configured repository is
    readable and known in [h]. *)
Definition covered (w : World) (repos : list (string * string))
    (h : ReleaseHistory.t) : Prop :=
  forall owner repo rd,
    (owner, repo) ∈ repos ->
    rd ∈ source_at w 0 owner repo ->
    exists z, readable rd z /\ z ∈ known_ids h owner repo.

(** [pat in s] on strings. *)
Definition contains (pat s : string) : Prop :=
  exists a b, s = (a ++ pat ++ b)%string.

(** The same, computed: [pat] is a prefix of some suffix of [s]. *)
Fixpoint has_substring (pat s : string) : bool :=
  String.prefix pat s
  || match s with
     | EmptyString => false
     | String _ s' => has_substring pat s'
     end.

(** The fence of a code block. *)
Definition fence : string := "```".

(** The writes of the history file in a trace. *)
Definition is_saved (ev : Event) : bool :=
  match ev with ESaved _ => true | _ => false end.

(** A computation that keeps a property of the history, whether it returns
    or raises. *)
Definition keeps (P : ReleaseHistory.t -> Prop) {A} (m : M A) : Prop :=
  forall st, P (history st) -> P (history (snd (m st))).

(** A computation that leaves the history as it is. *)
Definition pure_history {A} (m : M A) : Prop :=
  forall st, history (snd (m st)) = history st.

(** The Summarizer and Notifier calls of a trace, with their subject. *)
Inductive Call : Type :=
| Summarize (nr : NewRelease)
| Mail (recipient : string) (nr : NewRelease).

Definition call_of (ev : Event) : option Call :=
  match ev with
  | ELlmCall owner repo release => Some (Summarize (owner, repo, release))
  | EToolCall req =>
      Some (Mail (email_to req)
              (email_owner req, email_repo req, email_release req))
  | _ => None
  end.

Definition calls (tr : list Event) : list Call := omap call_of tr.

(** The model client answers a string at every time. *)
Definition llm_answers (w : World) : Prop :=
  forall t owner repo release,
    exists content, model_client_create w t owner repo release = LlmContent content.

(** ** A concrete world: the repository [acme/widget] *)

Module Scenario.

Definition raw (id : Z) (tag : string) (title : option string) : RawRelease.t :=
  RawRelease.mk (Id id) (Str tag)
    (match title with Some s => Str s | None => Null end)
    (Str "2024-05-01T10:00:00Z") (Str "https://example.org/acme/widget/releases")
    (Str "Notes").

(** A draft release, as the API lists it for a token with push access: not
    published yet, so [published_at] holds [null]. *)
Definition draft (id : Z) (tag : string) : RawRelease.t :=
  RawRelease.mk (Id id) (Str tag) (Str "Draft") Null
    (Str "https://example.org/acme/widget/releases") (Str "Notes").

Definition R1 : RawRelease.t := raw 1 "v1.0" (Some "First"%string).
Definition R3 : RawRelease.t := raw 3 "v3.0" None.
Definition R5 : RawRelease.t := raw 5 "v5.0" (Some ""%string).
(** [R1] fetched again after an edit of its tag and title. *)
Definition R1_edited : RawRelease.t := raw 1 "v1.0.1" (Some "First, edited"%string).

(** A release source that answers [data] for [acme/widget] at every time
    and fails for every other repository; a healthy summarizer and mail
    tool. *)
Definition world (data : list RawRelease.t) : World :=
  mkWorld
    (fun _ owner repo =>
       if String.eqb owner "acme" && String.eqb repo "widget"
       then Json data else RequestFailed "404 Not Found")
    (fun _ => "2024-06-01T12:00:00"%string)
    (fun _ _ _ _ => LlmContent "<p>Summary</p>")
    (fun _ _ => ToolResult false "sent")
    (fun _ => Raise (ValueError "Expecting value"))
    (fun _ => "{}"%string)
    (fun _ => None).

(** The same, with a summarizer that raises on its first call only. *)
Definition flaky_llm_world (data : list RawRelease.t) : World :=
  mkWorld
    (requests_get (world data))
    (datetime_now (world data))
    (fun t _ _ _ =>
       if (t <=? 2)%nat then LlmRaises (RuntimeError "rate limit exceeded")
       else LlmContent "<p>Summary</p>")
    (call_tool (world data))
    (parse_history (world data))
    (dump_history (world data))
    (workbench_start (world data)).

(** The source holds release 101 while the monitor initializes (times 0
    and 1) and releases 102 and 101 from then on. *)
Definition release_102_appears : World :=
  mkWorld
    (fun t owner repo =>
       if String.eqb owner "acme" && String.eqb repo "widget"
       then Json (if (t <? 2)%nat then [raw 101 "v1.0.1" None]
                  else [raw 102 "v1.0.2" None; raw 101 "v1.0.1" None])
       else RequestFailed "404 Not Found")
    (datetime_now (world []))
    (model_client_create (world []))
    (call_tool (world []))
    (parse_history (world []))
    (dump_history (world []))
    (workbench_start (world [])).

Definition state_of (repos : list RepoConfig.t) : State :=
  mkState (ReleaseHistory.mk repos) NoFile 0 [].

(** Nothing tracked yet. *)
Definition fresh : State := state_of [].

(** [acme/widget] tracked with release 1 known, last checked in January. *)
Definition knows_R1 : State :=
  state_of [RepoConfig.mk "acme" "widget" (Some "2024-01-01T00:00:00"%string)
              [release_of R1]].

Definition self : Orchestrator :=
  mkOrchestrator [("acme", "widget")] "ops@example.org" 3600.

(** A world whose history file format reads back [h], and only [h]. *)
Definition archive_world (h : ReleaseHistory.t) : World :=
  mkWorld
    (requests_get (world []))
    (datetime_now (world []))
    (model_client_create (world []))
    (call_tool (world []))
    (fun text => if String.eqb text "saved" then Ok h
                 else Raise (ValueError "Expecting value"))
    (fun _ => "saved"%string)
    (workbench_start (world [])).

(** Release 102 appears after the start, and the model client answers
    something that is not a string. *)
Definition release_102_appears_llm_not_str : World :=
  mkWorld
    (requests_get release_102_appears)
    (datetime_now release_102_appears)
    (fun _ _ _ _ => LlmNotStr)
    (call_tool release_102_appears)
    (parse_history release_102_appears)
    (dump_history release_102_appears)
    (workbench_start release_102_appears).

Definition args_without_repository : Args :=
  mkArgs ["widget"; "acme/widget/v1"; ""]%string "ops@example.org" 3600.

End Scenario.

(** ** Basic facts *)

Example strip_fences_html :
  strip_fences "```html<h2>Fixes</h2>```" = "<h2>Fixes</h2>"%string.
Proof. reflexivity. Qed.

Example strip_fences_four_backticks : strip_fences "a````b" = "a`b"%string.
Proof. reflexivity. Qed.

Example make_release_name_falls_back_to_tag :
  Release.name <$> make_release_opt Scenario.R3 = Some "v3.0"%string
  /\ Release.name <$> make_release_opt Scenario.R5 = Some "v5.0"%string
  /\ Release.name <$> make_release_opt Scenario.R1 = Some "First"%string.
Proof. repeat split. Qed.

Example make_release_rejects_draft_and_missing_key :
  make_release (Scenario.draft 7 "v7.0") = Raise ValidationError
  /\ make_release
       (RawRelease.mk (Id 7) (Str "v7.0") Null Absent (Str "url") Absent)
     = Raise (KeyError "published_at")
  /\ make_release
       (RawRelease.mk (Id 7) (Str "v7.0") Null (Str "2024") (Str "url") Absent)
     = Ok (Release.mk 7 "v7.0" "v7.0" "2024" "url" (Some ""%string)).
Proof. repeat split. Qed.

Example py_position_examples :
  py_position [10; 20; 30] 2 = Some 2%nat
  /\ py_position [10; 20; 30] (-1) = Some 2%nat
  /\ py_position [10; 20; 30] 3 = None
  /\ py_position [10; 20; 30] (-4) = None.
Proof. repeat split. Qed.

Lemma py_in_elem_of (x : Z) (xs : list Z) : py_in x xs = true <-> x ∈ xs.
Proof.
  induction xs as [|y ys IH]; simpl.
  - split; [discriminate | intros H; inversion H].
  - rewrite orb_true_iff, IH, Z.eqb_eq, elem_of_cons. tauto.
Qed.

Lemma py_in_not_elem_of (x : Z) (xs : list Z) : py_in x xs = false <-> x ∉ xs.
Proof.
  rewrite <- py_in_elem_of. destruct (py_in x xs); split; congruence.
Qed.

Lemma py_position_nonneg {A} (xs : list A) (k : nat) :
  (k < length xs)%nat -> py_position xs (Z.of_nat k) = Some k.
Proof.
  intros Hk. unfold py_position.
  replace (0 <=? Z.of_nat k) with true by (symmetry; apply Z.leb_le; lia).
  replace (Z.of_nat k <? Z.of_nat (length xs)) with true
    by (symmetry; apply Z.ltb_lt; lia).
  simpl. now rewrite Nat2Z.id.
Qed.

Lemma py_position_alter {A} (f : A -> A) (k : nat) (xs : list A) (i : Z) :
  py_position (alter f k xs) i = py_position xs i.
Proof. unfold py_position. now rewrite length_alter. Qed.

Lemma has_key_eqb owner repo rc :
  String.eqb (RepoConfig.owner rc) owner && String.eqb (RepoConfig.repo rc) repo
  = bool_decide (has_key owner repo rc).
Proof.
  unfold has_key.
  destruct (String.eqb_spec (RepoConfig.owner rc) owner) as [Ho|Ho];
    destruct (String.eqb_spec (RepoConfig.repo rc) repo) as [Hr|Hr]; simpl;
    symmetry; (apply bool_decide_eq_true_2 || apply bool_decide_eq_false_2);
    tauto.
Qed.

(** [_get_repo_index] finds the first entry with the key, or answers -1. *)
Lemma _get_repo_index_from_find owner repo repos : forall i,
  _get_repo_index_from i repos owner repo =
  match list_find (has_key owner repo) repos with
  | Some (k, _) => i + Z.of_nat k
  | None => -1
  end.
Proof.
  induction repos as [|rc rest IH]; intros i; simpl; [reflexivity|].
  rewrite has_key_eqb. destruct (decide (has_key owner repo rc)) as [Hk|Hk].
  - rewrite bool_decide_eq_true_2 by assumption. simpl. lia.
  - rewrite bool_decide_eq_false_2 by assumption. rewrite IH.
    destruct (list_find (has_key owner repo) rest) as [[k rc']|]; simpl; lia.
Qed.

Lemma list_find_bound {A} (P : A -> Prop) `{forall x, Decision (P x)}
    (l : list A) k x :
  list_find P l = Some (k, x) -> (k < length l)%nat.
Proof.
  intros Hf. apply list_find_Some in Hf as [Hl _].
  now apply lookup_lt_Some in Hl.
Qed.

(** ** How each operation runs *)

Lemma extend_nil rc : extend [] rc = rc.
Proof. destruct rc. unfold extend. simpl. now rewrite app_nil_r. Qed.

Lemma extend_append release news rc :
  extend news (RepoConfig.append_release release rc) = extend (release :: news) rc.
Proof.
  unfold extend, RepoConfig.append_release. simpl.
  now rewrite <- app_assoc.
Qed.

Lemma set_history_same st :
  set_history (ReleaseHistory.mk (ReleaseHistory.repositories (history st))) st = st.
Proof. destruct st as [[repos] d c t]. reflexivity. Qed.

Lemma set_history_twice h1 h2 st :
  set_history h2 (set_history h1 st) = set_history h2 st.
Proof. reflexivity. Qed.

(** *** The constructor and one turn of the loop *)

(** [make_release] returns exactly on the well-formed records, and then the
    release it returns carries the fields of the record. *)
Lemma make_release_well_formed rd :
  well_formed rd = true ->
  make_release rd = Ok (release_of rd)
  /\ name_or_tag rd = Ok (Some (Release.name (release_of rd))).
Proof.
  destruct rd as [[| |z] [| |t] [| |n] [| |p] [| |u] b]; try discriminate;
    intros _; unfold make_release, name_or_tag, release_of; simpl;
    try (split; reflexivity);
    destruct (String.eqb n ""); split; reflexivity.
Qed.

Lemma make_release_Ok rd release :
  make_release rd = Ok release ->
  well_formed rd = true /\ release = release_of rd.
Proof.
  destruct rd as [[| |z] [| |t] [| |n] [| |p] [| |u] b];
    unfold make_release, name_or_tag, release_of; simpl;
    try discriminate;
    try (destruct (String.eqb n ""); simpl); try discriminate;
    intros H; injection H as <-; split; reflexivity.
Qed.

Lemma release_of_carries rd :
  well_formed rd = true -> carries rd (release_of rd).
Proof.
  destruct rd as [[| |z] [| |t] [| |n] [| |p] [| |u] b]; try discriminate;
    intros _; unfold carries, release_of; simpl; repeat split.
Qed.

Lemma make_release_carries rd release :
  make_release rd = Ok release -> carries rd release.
Proof.
  intros H. apply make_release_Ok in H as [Hwf ->].
  now apply release_of_carries.
Qed.

Lemma release_of_id rd z :
  RawRelease.id rd = Id z -> Release.id (release_of rd) = z.
Proof. unfold release_of. simpl. now intros ->. Qed.

Lemma well_formed_id rd :
  well_formed rd = true -> RawRelease.id rd = Id (Release.id (release_of rd)).
Proof. intros H. now destruct (release_of_carries rd H) as [-> _]. Qed.

Lemma scan_step_well_formed known rd :
  well_formed rd = true ->
  scan_step known rd
  = Ok (if is_new known rd then Some (release_of rd) else None).
Proof.
  intros Hwf. destruct (make_release_well_formed rd Hwf) as [Hm Hn].
  unfold scan_step, is_new. rewrite (well_formed_id rd Hwf).
  cbn [subscript_id and_then py_in_opt]. rewrite Hn, Hm.
  now destruct (py_in (Release.id (release_of rd)) known).
Qed.

(** A turn that appends a release: the record is well formed, its
    identifier is not known, and the release is the one it carries. *)
Lemma scan_step_Some known rd release :
  scan_step known rd = Ok (Some release) ->
  well_formed rd = true /\ release = release_of rd
  /\ (Release.id release ∉ known).
Proof.
  unfold scan_step.
  destruct (subscript_id (RawRelease.id rd)) as [id|e] eqn:Hid; [|discriminate].
  simpl. destruct (py_in_opt id known) eqn:Hin; simpl.
  - destruct (name_or_tag rd); discriminate.
  - destruct (name_or_tag rd); simpl; [|discriminate].
    destruct (make_release rd) as [r|e] eqn:Hm; simpl; [|discriminate].
    intros H. injection H as ->. apply make_release_Ok in Hm as [Hwf ->].
    split; [exact Hwf|]. split; [reflexivity|].
    rewrite (well_formed_id rd Hwf) in Hid. injection Hid as <-.
    now apply py_in_not_elem_of.
Qed.

(** A turn that skips a record: it is readable and its identifier known. *)
Lemma scan_step_None known rd :
  scan_step known rd = Ok None -> exists z, readable rd z /\ z ∈ known.
Proof.
  unfold scan_step, readable.
  destruct (RawRelease.id rd) as [| |z]; simpl; try discriminate.
  - destruct (name_or_tag rd); simpl; [|discriminate].
    destruct (make_release rd); discriminate.
  - destruct (py_in z known) eqn:Hin; simpl.
    + destruct (name_or_tag rd) as [shown|e]; [|discriminate].
      intros _. exists z. split; [eauto|]. now apply py_in_elem_of.
    + destruct (name_or_tag rd); simpl; [|discriminate].
      destruct (make_release rd); discriminate.
Qed.

Lemma scan_step_known known rd z :
  readable rd z -> z ∈ known -> scan_step known rd = Ok None.
Proof.
  intros [Hid [shown Hshown]] Hin. unfold scan_step. rewrite Hid. simpl.
  replace (py_in z known) with true by (symmetry; now apply py_in_elem_of).
  simpl. now rewrite Hshown.
Qed.

Lemma well_formed_readable rd :
  well_formed rd = true -> readable rd (Release.id (release_of rd)).
Proof.
  intros Hwf. split; [now apply well_formed_id|].
  destruct (make_release_well_formed rd Hwf) as [_ Hn]. eauto.
Qed.

(** *** The loop *)

Lemma scan_outcome_well_formed known releases_data :
  Forall (fun rd => well_formed rd = true) releases_data ->
  scan_outcome known releases_data
  = (map release_of (List.filter (is_new known) releases_data), None).
Proof.
  induction 1 as [|rd rest Hwf _ IH]; [reflexivity|].
  simpl. rewrite (scan_step_well_formed known rd Hwf), IH.
  now destruct (is_new known rd).
Qed.

(** The appended releases are new ones, carried by fetched records. *)
Lemma scan_outcome_appended known releases_data release :
  release ∈ fst (scan_outcome known releases_data) ->
  (Release.id release ∉ known)
  /\ exists rd, rd ∈ releases_data /\ well_formed rd = true
                /\ release = release_of rd.
Proof.
  induction releases_data as [|rd rest IH]; simpl; [intros H; inversion H|].
  destruct (scan_step known rd) as [[r|]|e] eqn:Hstep; simpl.
  - intros Hin. apply elem_of_cons in Hin as [->|Hin].
    + apply scan_step_Some in Hstep as (Hwf & -> & Hnew).
      split; [exact Hnew|]. exists rd. split; [left|]. auto.
    + destruct (IH Hin) as (Hnew & rd' & Hrd' & Hwf & ->).
      split; [exact Hnew|]. exists rd'. split; [now right|]. auto.
  - intros Hin. destruct (IH Hin) as (Hnew & rd' & Hrd' & Hwf & ->).
    split; [exact Hnew|]. exists rd'. split; [now right|]. auto.
  - intros H. inversion H.
Qed.

(** When the loop ends without an exception, every fetched record was
    readable, and its identifier was known or is that of an appended
    release. *)
Lemma scan_outcome_complete known releases_data rd :
  snd (scan_outcome known releases_data) = None ->
  rd ∈ releases_data ->
  exists z, readable rd z
            /\ (z ∈ known
                \/ z ∈ map Release.id (fst (scan_outcome known releases_data))).
Proof.
  induction releases_data as [|rd' rest IH]; simpl; [intros _ H; inversion H|].
  destruct (scan_step known rd') as [[r|]|e] eqn:Hstep; simpl;
    [| |discriminate]; intros Hnone Hin.
  - apply elem_of_cons in Hin as [->|Hin].
    + apply scan_step_Some in Hstep as (Hwf & -> & _).
      exists (Release.id (release_of rd')).
      split; [now apply well_formed_readable|]. right. left.
    + destruct (IH Hnone Hin) as (z & Hr & [Hk|Hk]); exists z; split; auto.
      right. now right.
  - apply elem_of_cons in Hin as [->|Hin]; [|now apply IH].
    apply scan_step_None in Hstep as (z & Hr & Hk). eauto.
Qed.

(** When every fetched record is readable and known, the loop appends
    nothing and ends without an exception. *)
Lemma scan_outcome_all_known known releases_data :
  (forall rd, rd ∈ releases_data -> exists z, readable rd z /\ z ∈ known) ->
  scan_outcome known releases_data = ([], None).
Proof.
  induction releases_data as [|rd rest IH]; intros Hall; [reflexivity|].
  simpl. destruct (Hall rd) as (z & Hr & Hk); [left|].
  rewrite (scan_step_known known rd z Hr Hk). apply IH.
  intros rd' Hin. apply Hall. now right.
Qed.

Lemma scan_releases_run owner repo repo_index known k :
  forall releases_data new_releases st,
    py_position (ReleaseHistory.repositories (history st)) repo_index = Some k ->
    scan_releases owner repo repo_index known releases_data new_releases st =
    (match snd (scan_outcome known releases_data) with
     | None =>
         Ok (new_releases ++
             map (tag owner repo) (fst (scan_outcome known releases_data)))
     | Some e => Raise e
     end,
     set_history
       (ReleaseHistory.mk
          (alter (extend (fst (scan_outcome known releases_data)))
             k (ReleaseHistory.repositories (history st))))
       st).
Proof.
  assert (Hid : forall st : State,
             set_history
               (ReleaseHistory.mk
                  (alter (extend []) k (ReleaseHistory.repositories (history st))))
               st = st).
  { intros st. rewrite list_alter_id by apply extend_nil.
    apply set_history_same. }
  induction releases_data as [|rd rest IH]; intros acc st Hpos.
  - simpl. unfold ret. now rewrite app_nil_r, Hid.
  - cbn [scan_releases scan_outcome]. unfold scan_step.
    unfold bind at 1, lift at 1.
    destruct (subscript_id (RawRelease.id rd)) as [id|e]; simpl;
      [|now rewrite Hid].
    destruct (py_in_opt id known); simpl.
    + unfold bind at 1, lift at 1.
      destruct (name_or_tag rd) as [shown|e]; simpl; [|now rewrite Hid].
      now apply IH.
    + unfold bind at 1, lift at 1.
      destruct (name_or_tag rd) as [shown|e]; simpl; [|now rewrite Hid].
      unfold bind at 1, lift at 1.
      destruct (make_release rd) as [release|e]; simpl; [|now rewrite Hid].
      unfold bind at 1. unfold update_repo_at at 1. rewrite Hpos.
      rewrite IH by (simpl; now rewrite py_position_alter).
      simpl. rewrite set_history_twice.
      rewrite list_alter_alter. destruct (decide (k = k)) as [_|Hne]; [|congruence].
      f_equal.
      * destruct (snd (scan_outcome known rest)); [reflexivity|].
        now rewrite <- app_assoc.
      * f_equal. f_equal. apply list_alter_ext; [|reflexivity].
        intros x _. simpl. apply extend_append.
Qed.

Lemma _get_repo_index_run owner repo st :
  _get_repo_index owner repo st =
  (Ok (match tracked (history st) owner repo with
       | Some (k, _) => Z.of_nat k
       | None => -1
       end), st).
Proof.
  unfold _get_repo_index, bind, get_history, ret, tracked.
  rewrite _get_repo_index_from_find.
  now destruct (list_find _ _) as [[k rc]|].
Qed.

Lemma _ensure_repo_exists_run owner repo st :
  _ensure_repo_exists owner repo st =
  (Ok (Z.of_nat (ensured_index (history st) owner repo)),
   set_history (ReleaseHistory.mk (ensured (history st) owner repo)) st).
Proof.
  unfold _ensure_repo_exists, bind at 1. rewrite _get_repo_index_run.
  unfold ensured_index, ensured.
  destruct (tracked (history st) owner repo) as [[k rc]|].
  - replace (Z.of_nat k =? -1) with false by (symmetry; apply Z.eqb_neq; lia).
    unfold ret. now rewrite set_history_same.
  - simpl. unfold bind, get_history, put_history, ret. simpl.
    rewrite length_app. simpl. do 2 f_equal. lia.
Qed.

(** The entry at the ensured position carries the key and the releases
    known before. *)
Lemma ensured_lookup h owner repo :
  exists rc,
    ensured h owner repo !! ensured_index h owner repo = Some rc /\
    has_key owner repo rc /\
    RepoConfig.releases rc = stored h owner repo.
Proof.
  unfold ensured, ensured_index, stored.
  destruct (tracked h owner repo) as [[k rc]|] eqn:Ht.
  - exists rc. apply list_find_Some in Ht as (Hl & Hk & _). auto.
  - exists (RepoConfig.new owner repo). split; [|split; [split|]]; try reflexivity.
    rewrite lookup_app_r by lia. now rewrite Nat.sub_diag.
Qed.

Lemma ensured_index_bound h owner repo :
  (ensured_index h owner repo < length (ensured h owner repo))%nat.
Proof.
  destruct (ensured_lookup h owner repo) as (rc & Hl & _).
  now apply lookup_lt_Some in Hl.
Qed.

Lemma known_ids_stored h owner repo :
  known_ids h owner repo = map Release.id (stored h owner repo).
Proof.
  unfold known_ids, stored. now destruct (tracked h owner repo) as [[k rc]|].
Qed.

Lemma get_releases_run w owner repo st :
  get_releases w owner repo st =
  (Ok (fetched w st owner repo), exec (get_releases w owner repo) st).
Proof.
  unfold exec, get_releases, fetched, source_at.
  now destruct (requests_get w (clock st) owner repo).
Qed.

Lemma get_releases_history w owner repo st :
  history (exec (get_releases w owner repo) st) = history st.
Proof.
  unfold exec, get_releases.
  now destruct (requests_get w (clock st) owner repo).
Qed.

Lemma check_for_new_releases_run w owner repo st :
  check_for_new_releases w owner repo st =
  (check_result w owner repo st, after_check w owner repo st).
Proof.
  unfold check_for_new_releases, after_check, check_result, check_failure, new_in.
  unfold bind at 1. rewrite get_releases_run.
  pose proof (get_releases_history w owner repo st) as Hh.
  set (st1 := exec (get_releases w owner repo) st) in *.
  destruct (fetched w st owner repo) as [|rd data] eqn:Hf; [reflexivity|].
  cbv beta iota. remember (rd :: data) as releases_data eqn:Hd.
  unfold bind at 1. rewrite _ensure_repo_exists_run. rewrite Hh.
  destruct (ensured_lookup (history st) owner repo) as (rc & Hl & _ & Hrel).
  pose proof (ensured_index_bound (history st) owner repo) as Hb.
  set (k := ensured_index (history st) owner repo) in *.
  set (reps := ensured (history st) owner repo) in *.
  unfold bind at 1. unfold now_isoformat at 1. simpl clock.
  set (now := datetime_now w (clock st1)).
  unfold bind at 1. unfold update_repo_at at 1. simpl history.
  simpl ReleaseHistory.repositories.
  rewrite py_position_nonneg by assumption.
  unfold bind at 1. unfold repo_at at 1. simpl history.
  simpl ReleaseHistory.repositories.
  rewrite py_position_alter, py_position_nonneg by assumption.
  rewrite list_lookup_alter_eq, Hl. simpl.
  rewrite Hrel, <- known_ids_stored.
  unfold bind at 1.
  rewrite (scan_releases_run owner repo (Z.of_nat k)
             (known_ids (history st) owner repo) k)
    by (simpl; now rewrite py_position_alter, py_position_nonneg).
  simpl history. simpl ReleaseHistory.repositories.
  rewrite list_alter_alter. destruct (decide (k = k)) as [_|Hne]; [|congruence].
  destruct (scan_outcome (known_ids (history st) owner repo) releases_data)
    as [news [e|]]; simpl; [now destruct news|].
  destruct news as [|r news']; reflexivity.
Qed.

(** ** The stored releases after a check *)

Lemma list_find_alter_keys owner repo (f : RepoConfig.t -> RepoConfig.t) :
  (forall rc, has_key owner repo (f rc) <-> has_key owner repo rc) ->
  forall repos k,
    list_find (has_key owner repo) (alter f k repos) =
    match list_find (has_key owner repo) repos with
    | Some (j, rc) => Some (j, if decide (j = k) then f rc else rc)
    | None => None
    end.
Proof.
  intros Hf. induction repos as [|x rest IH]; intros k; [reflexivity|].
  destruct k as [|k]; simpl.
  - destruct (decide (has_key owner repo x)) as [Hy|Hy].
    + rewrite decide_True by (now apply Hf). reflexivity.
    + rewrite decide_False by (now rewrite Hf).
      destruct (list_find (has_key owner repo) rest) as [[j rc]|]; reflexivity.
  - destruct (decide (has_key owner repo x)) as [Hy|Hy]; simpl; [reflexivity|].
    change (list_alter f k rest) with (alter f k rest). rewrite IH.
    destruct (list_find (has_key owner repo) rest) as [[j rc]|]; simpl;
      [|reflexivity].
    destruct (decide (j = k)) as [->|Hne].
    + now rewrite decide_True.
    + rewrite decide_False by lia. reflexivity.
Qed.

Lemma has_key_set_latest_check owner repo now news rc :
  has_key owner repo (extend news (RepoConfig.set_latest_check now rc))
  <-> has_key owner repo rc.
Proof. reflexivity. Qed.

(** [_ensure_repo_exists] changes nobody's stored releases. *)
Lemma stored_ensured h owner repo owner' repo' :
  stored (ReleaseHistory.mk (ensured h owner repo)) owner' repo'
  = stored h owner' repo'.
Proof.
  unfold stored, ensured, tracked at 1 3. simpl.
  destruct (tracked h owner repo) as [[k rc]|] eqn:Ht; [reflexivity|].
  unfold tracked in *.
  destruct (list_find (has_key owner' repo') (ReleaseHistory.repositories h))
    as [[j rc']|] eqn:Hf.
  - now rewrite (list_find_app_l _ _ _ _ _ Hf).
  - rewrite list_find_app_r by assumption. simpl.
    destruct (decide (has_key owner' repo' (RepoConfig.new owner repo)));
      reflexivity.
Qed.

Lemma tracked_ensured h owner repo :
  exists rc,
    tracked (ReleaseHistory.mk (ensured h owner repo)) owner repo
    = Some (ensured_index h owner repo, rc)
    /\ RepoConfig.releases rc = stored h owner repo.
Proof.
  unfold ensured, ensured_index, stored, tracked at 1. simpl.
  destruct (tracked h owner repo) as [[k rc]|] eqn:Ht.
  - exists rc. split; [exact Ht | reflexivity].
  - exists (RepoConfig.new owner repo). split; [|reflexivity].
    unfold tracked in Ht. rewrite list_find_app_r by assumption. simpl.
    rewrite decide_True by (split; reflexivity). simpl.
    reflexivity.
Qed.

Lemma history_after_check w owner repo st :
  history (after_check w owner repo st) =
  match fetched w st owner repo with
  | [] => history st
  | _ :: _ =>
      ReleaseHistory.mk
        (alter (fun rc => extend (new_in w owner repo st)
                            (RepoConfig.set_latest_check
                               (datetime_now w
                                  (clock (exec (get_releases w owner repo) st)))
                               rc))
           (ensured_index (history st) owner repo)
           (ensured (history st) owner repo))
  end.
Proof.
  unfold after_check.
  destruct (fetched w st owner repo) as [|rd data].
  - apply get_releases_history.
  - cbv zeta.
    destruct (new_in w owner repo st), (check_failure w owner repo st);
      reflexivity.
Qed.

Lemma new_in_nil w owner repo st :
  fetched w st owner repo = [] -> new_in w owner repo st = [].
Proof. unfold new_in. now intros ->. Qed.

(** A check appends the new releases to the checked repository and leaves
    the stored releases of every other repository alone. *)
Lemma stored_after_check w owner repo owner' repo' st :
  stored (history (after_check w owner repo st)) owner' repo' =
  if decide (owner' = owner /\ repo' = repo)
  then stored (history st) owner repo ++ new_in w owner repo st
  else stored (history st) owner' repo'.
Proof.
  rewrite history_after_check.
  destruct (fetched w st owner repo) as [|rd data] eqn:Hf.
  - rewrite (new_in_nil _ _ _ _ Hf), app_nil_r.
    destruct (decide _) as [[-> ->]|]; reflexivity.
  - set (news := new_in w owner repo st).
    set (now := datetime_now w _).
    unfold stored at 1, tracked. simpl.
    rewrite list_find_alter_keys by (intros rc; apply has_key_set_latest_check).
    destruct (decide (owner' = owner /\ repo' = repo)) as [[-> ->]|Hne].
    + destruct (tracked_ensured (history st) owner repo) as (rc & Ht & Hrel).
      unfold tracked in Ht. simpl in Ht. rewrite Ht.
      rewrite decide_True by reflexivity. simpl. now rewrite Hrel.
    + rewrite <- (stored_ensured (history st) owner repo owner' repo').
      unfold stored, tracked. simpl.
      destruct (list_find (has_key owner' repo') (ensured (history st) owner repo))
        as [[j rc']|] eqn:Hfind; [|reflexivity].
      destruct (decide (j = ensured_index (history st) owner repo)) as [->|];
        [|reflexivity].
      exfalso. apply list_find_Some in Hfind as (Hl & [Ho Hr] & _).
      destruct (ensured_lookup (history st) owner repo) as (rc & Hl' & [Ho' Hr'] & _).
      rewrite Hl in Hl'. injection Hl' as ->. apply Hne. split; congruence.
Qed.

(** ** Change detection *)

Lemma eval_check_for_new_releases w owner repo st :
  eval (check_for_new_releases w owner repo) st = check_result w owner repo st.
Proof. unfold eval. now rewrite check_for_new_releases_run. Qed.

Lemma exec_check_for_new_releases w owner repo st :
  exec (check_for_new_releases w owner repo) st = after_check w owner repo st.
Proof. unfold exec. now rewrite check_for_new_releases_run. Qed.

(** A call that returns: no exception stopped the loop, and the report is
    the appended releases with the owner and the repo. *)
Lemma check_returns w owner repo st new_releases :
  eval (check_for_new_releases w owner repo) st = Ok new_releases ->
  check_failure w owner repo st = None
  /\ new_releases = map (tag owner repo) (new_in w owner repo st).
Proof.
  rewrite eval_check_for_new_releases. unfold check_result.
  destruct (check_failure w owner repo st); [discriminate|].
  intros H. injection H as <-. auto.
Qed.

Lemma check_failure_None w owner repo st :
  check_failure w owner repo st = None ->
  eval (check_for_new_releases w owner repo) st
  = Ok (map (tag owner repo) (new_in w owner repo st)).
Proof.
  intros H. rewrite eval_check_for_new_releases. unfold check_result.
  now rewrite H.
Qed.

(** On well-formed records the call returns, and the appended releases are
    those carried by the records that are new, in order. *)
Lemma check_well_formed w owner repo st :
  Forall (fun rd => well_formed rd = true) (fetched w st owner repo) ->
  check_failure w owner repo st = None
  /\ new_in w owner repo st
     = map release_of
         (List.filter (is_new (known_ids (history st) owner repo))
            (fetched w st owner repo)).
Proof.
  intros Hwf. unfold check_failure, new_in.
  now rewrite (scan_outcome_well_formed _ _ Hwf).
Qed.

Lemma filter_is_new known (releases_data : list RawRelease.t) :
  Forall (fun rd => well_formed rd = true) releases_data ->
  List.filter (is_new known) releases_data
  = filter (fun rd => RawRelease.id rd ∉ map Id known) releases_data.
Proof.
  induction 1 as [|rd rest Hwf _ IH]; [reflexivity|].
  simpl. rewrite filter_cons. unfold is_new at 1.
  rewrite (well_formed_id rd Hwf).
  set (z := Release.id (release_of rd)).
  destruct (py_in z known) eqn:Hin; simpl.
  - apply py_in_elem_of in Hin. rewrite decide_False; [exact IH|].
    intros Hnot. apply Hnot. now apply list_elem_of_fmap_2.
  - apply py_in_not_elem_of in Hin. rewrite decide_True; [now rewrite IH|].
    intros Hz. apply list_elem_of_fmap in Hz as (z' & Heq & Hz').
    injection Heq as <-. contradiction.
Qed.

(** When the loop ends without an exception, the appended releases carry,
    one for one and in order, the fetched records whose identifier is not
    known. *)
Lemma scan_outcome_carries known releases_data :
  snd (scan_outcome known releases_data) = None ->
  Forall2 carries
    (filter (fun rd => RawRelease.id rd ∉ map Id known) releases_data)
    (fst (scan_outcome known releases_data)).
Proof.
  induction releases_data as [|rd rest IH]; simpl; [constructor|].
  rewrite filter_cons.
  destruct (scan_step known rd) as [[r|]|e] eqn:Hstep; simpl;
    [| |discriminate]; intros Hnone.
  - apply scan_step_Some in Hstep as (Hwf & -> & Hnew).
    rewrite decide_True.
    + constructor; [now apply release_of_carries | now apply IH].
    + rewrite (well_formed_id rd Hwf). intros Hz.
      apply list_elem_of_fmap in Hz as (z' & Heq & Hz').
      injection Heq as <-. contradiction.
  - apply scan_step_None in Hstep as (z & [Hid _] & Hk).
    rewrite decide_False; [now apply IH|].
    intros Hnot. apply Hnot. rewrite Hid. now apply list_elem_of_fmap_2.
Qed.

(** X20. Change detection on the records the loop can read: whenever
    [check_for_new_releases] returns, what it returns is, one for one and in
    the order of the fetched list, the fetched records whose identifier is
    not known, each as a tuple of the checked owner and repo and a release
    that carries the fields of the record (its name being the tag when the
    record has none). It returns whenever the fetched records are well
    formed. *)
Theorem check_for_new_releases_returns_unknown_in_order
    (w : World) (owner repo : string) (st : State) :
  let known := known_ids (history st) owner repo in
  let unknown :=
    filter (fun rd => RawRelease.id rd ∉ map Id known) (fetched w st owner repo) in
  (forall new_releases,
     eval (check_for_new_releases w owner repo) st = Ok new_releases ->
     Forall2 (fun rd nr => fst nr = (owner, repo) /\ carries rd (snd nr))
       unknown new_releases)
  /\ (Forall (fun rd => well_formed rd = true) (fetched w st owner repo) ->
      exists new_releases,
        eval (check_for_new_releases w owner repo) st = Ok new_releases).
Proof.
  intros known unknown. subst known unknown. split.
  - intros new_releases Hret. apply check_returns in Hret as [Hnone ->].
    apply Forall2_fmap_r.
    eapply Forall2_impl; [apply scan_outcome_carries; exact Hnone|].
    intros rd release Hc. split; [reflexivity | exact Hc].
  - intros Hwf. eexists. apply check_failure_None.
    now apply check_well_formed.
Qed.

(** Order preservation on the example of the specification: with [R1] known
    and [R5; R1; R3] fetched, the answer is [R5; R3]. *)
Example order_preserved_R5_R1_R3 :
  let w := Scenario.world [Scenario.R5; Scenario.R1; Scenario.R3] in
  eval (check_for_new_releases w "acme" "widget") Scenario.knows_R1
  = Ok [("acme"%string, "widget"%string, release_of Scenario.R5);
        ("acme"%string, "widget"%string, release_of Scenario.R3)].
Proof. reflexivity. Qed.

(** C1, evaluated where it fails. Release 1 is known and the source lists
    release 5, a draft with no publication time, and release 3. The call
    raises the validation error of the draft: it reports nothing, not even
    release 5, which it has appended to the stored releases without saving;
    release 3 is not reached. Called again on the same data it raises
    again, and release 5, now known, is never reported. *)
Theorem draft_record_leaves_check_for_new_releases :
  let w := Scenario.world [Scenario.R5; Scenario.draft 7 "v7.0"; Scenario.R3] in
  let st := Scenario.knows_R1 in
  let st' := exec (check_for_new_releases w "acme" "widget") st in
  let st'' := exec (check_for_new_releases w "acme" "widget") st' in
  eval (check_for_new_releases w "acme" "widget") st = Raise ValidationError
  /\ stored (history st') "acme" "widget"
     = [release_of Scenario.R1; release_of Scenario.R5]
  /\ List.filter is_saved (trace st') = []
  /\ disk st' = NoFile
  /\ eval (check_for_new_releases w "acme" "widget") st' = Raise ValidationError
  /\ stored (history st'') "acme" "widget"
     = [release_of Scenario.R1; release_of Scenario.R5].
Proof. repeat split. Qed.

Lemma known_ids_after_check w owner repo st :
  known_ids (history (after_check w owner repo st)) owner repo
  = known_ids (history st) owner repo
    ++ map Release.id (new_in w owner repo st).
Proof.
  rewrite !known_ids_stored, stored_after_check.
  rewrite decide_True by (split; reflexivity). apply map_app.
Qed.

(** After a check that returns, every fetched record is readable and its
    identifier known. *)
Lemma fetched_known_after_check w owner repo st rd :
  check_failure w owner repo st = None ->
  rd ∈ fetched w st owner repo ->
  exists z,
    readable rd z
    /\ z ∈ known_ids (history (after_check w owner repo st)) owner repo.
Proof.
  intros Hnone Hin.
  destruct (scan_outcome_complete _ _ rd Hnone Hin) as (z & Hr & Hz).
  exists z. split; [exact Hr|].
  rewrite known_ids_after_check, elem_of_app. exact Hz.
Qed.

Lemma filter_none {A} (P : A -> Prop) `{forall x, Decision (P x)} (l : list A) :
  (forall x, x ∈ l -> ~ P x) -> filter P l = [].
Proof.
  induction l as [|x l IH]; intros Hall; [reflexivity|].
  rewrite filter_cons, decide_False by (apply Hall; left).
  apply IH. intros y Hy. apply Hall. now right.
Qed.

(** C3. When a call of [check_for_new_releases] returns, every fetched
    record has its identifier in the known set of the repository, and a
    second call that fetches the same list returns the empty list. *)
Theorem check_for_new_releases_twice_second_empty
    (w : World) (owner repo : string) (st : State)
    (new_releases : list NewRelease) :
  let st' := exec (check_for_new_releases w owner repo) st in
  eval (check_for_new_releases w owner repo) st = Ok new_releases ->
  fetched w st' owner repo = fetched w st owner repo ->
  (forall rd, rd ∈ fetched w st owner repo ->
              exists z, RawRelease.id rd = Id z
                        /\ z ∈ known_ids (history st') owner repo)
  /\ eval (check_for_new_releases w owner repo) st' = Ok [].
Proof.
  intros st' Hret Hsame. subst st'. rewrite exec_check_for_new_releases in *.
  apply check_returns in Hret as [Hnone _].
  split.
  - intros rd Hin.
    destruct (fetched_known_after_check w owner repo st rd Hnone Hin)
      as (z & [Hid _] & Hz).
    eauto.
  - rewrite eval_check_for_new_releases.
    unfold check_result, check_failure, new_in. rewrite Hsame.
    rewrite scan_outcome_all_known; [reflexivity|].
    intros rd. now apply fetched_known_after_check.
Qed.

Lemma check_for_new_releases_twice_second_empty_witness :
  let w := Scenario.world [Scenario.R5; Scenario.R1; Scenario.R3] in
  let st := Scenario.knows_R1 in
  let st' := exec (check_for_new_releases w "acme" "widget") st in
  eval (check_for_new_releases w "acme" "widget") st
    = Ok [("acme"%string, "widget"%string, release_of Scenario.R5);
          ("acme"%string, "widget"%string, release_of Scenario.R3)]
  /\ known_ids (history st') "acme" "widget" = [1; 5; 3]
  /\ eval (check_for_new_releases w "acme" "widget") st' = Ok [].
Proof.
  split; [reflexivity|]. split; [reflexivity|].
  apply (check_for_new_releases_twice_second_empty
           (Scenario.world [Scenario.R5; Scenario.R1; Scenario.R3])
           "acme" "widget" Scenario.knows_R1
           [("acme"%string, "widget"%string, release_of Scenario.R5);
            ("acme"%string, "widget"%string, release_of Scenario.R3)]).
  - reflexivity.
  - reflexivity.
Defined.

(** C9. When a fetched record carries an identifier that is already known,
    whatever its tag, name or other fields, no reported release has that
    identifier, and the releases stored under that identifier are exactly
    those stored before the call, whether the call returns or raises; on
    well-formed records it returns. *)
Theorem known_release_neither_reported_nor_updated
    (w : World) (owner repo : string) (st : State) (rd : RawRelease.t) (z : Z) :
  rd ∈ fetched w st owner repo ->
  RawRelease.id rd = Id z ->
  z ∈ known_ids (history st) owner repo ->
  let st' := exec (check_for_new_releases w owner repo) st in
  (forall new_releases,
     eval (check_for_new_releases w owner repo) st = Ok new_releases ->
     forall nr, nr ∈ new_releases -> Release.id (snd nr) <> z)
  /\ filter (fun rel => Release.id rel = z) (stored (history st') owner repo)
     = filter (fun rel => Release.id rel = z) (stored (history st) owner repo)
  /\ (Forall (fun rd => well_formed rd = true) (fetched w st owner repo) ->
      exists new_releases,
        eval (check_for_new_releases w owner repo) st = Ok new_releases).
Proof.
  intros _ _ Hknown st'. subst st'.
  assert (Hnone : forall rel, rel ∈ new_in w owner repo st -> Release.id rel <> z).
  { intros rel Hin Heq. unfold new_in in Hin.
    apply scan_outcome_appended in Hin as [Hnew _]. congruence. }
  split; [|split].
  - intros news Hret nr Hin. apply check_returns in Hret as [_ ->].
    apply list_elem_of_fmap in Hin as (rel & -> & Hin).
    simpl. now apply Hnone.
  - rewrite exec_check_for_new_releases, stored_after_check.
    rewrite decide_True by (split; reflexivity).
    rewrite filter_app.
    replace (filter _ (new_in w owner repo st)) with (@nil Release.t);
      [apply app_nil_r|].
    symmetry. apply filter_none. intros rel Hin. now apply Hnone.
  - intros Hwf. destruct (check_well_formed w owner repo st Hwf) as [Hf _].
    eexists. now apply check_failure_None.
Qed.

Lemma known_release_neither_reported_nor_updated_witness :
  let w := Scenario.world [Scenario.R5; Scenario.R1_edited] in
  let st := Scenario.knows_R1 in
  let st' := exec (check_for_new_releases w "acme" "widget") st in
  release_of Scenario.R1_edited <> release_of Scenario.R1
  /\ eval (check_for_new_releases w "acme" "widget") st
     = Ok [("acme"%string, "widget"%string, release_of Scenario.R5)]
  /\ filter (fun rel => Release.id rel = 1) (stored (history st') "acme" "widget")
     = [release_of Scenario.R1].
Proof.
  split; [discriminate|]. split; [reflexivity|].
  refine (eq_trans
    (proj1 (proj2 (known_release_neither_reported_nor_updated
              (Scenario.world [Scenario.R5; Scenario.R1_edited])
              "acme" "widget" Scenario.knows_R1 Scenario.R1_edited 1 _ _ _))) _).
  - right. left.
  - reflexivity.
  - left.
  - reflexivity.
Defined.

(** C10. When one fetched list of well-formed records holds two records
    with the same identifier, unknown before the call, both are reported as
    new and both are appended to the stored releases: the known identifiers
    are read once, before the loop. *)
Theorem duplicate_identifier_in_one_fetch_reported_twice
    (w : World) (owner repo : string) (st : State)
    (pre mid post : list RawRelease.t) (a b : RawRelease.t) (z : Z) :
  Forall (fun rd => well_formed rd = true) (fetched w st owner repo) ->
  fetched w st owner repo = pre ++ a :: mid ++ b :: post ->
  RawRelease.id a = Id z ->
  RawRelease.id b = Id z ->
  z ∉ known_ids (history st) owner repo ->
  let st' := exec (check_for_new_releases w owner repo) st in
  exists n1 n2 n3,
    eval (check_for_new_releases w owner repo) st
    = Ok (map (fun rel => (owner, repo, rel))
            (n1 ++ release_of a :: n2 ++ release_of b :: n3))
    /\ stored (history st') owner repo
       = stored (history st) owner repo
         ++ n1 ++ release_of a :: n2 ++ release_of b :: n3
    /\ carries a (release_of a) /\ carries b (release_of b).
Proof.
  intros Hwf Hf Hida Hidb Hnew st'. subst st'.
  destruct (check_well_formed w owner repo st Hwf) as [Hnone Hin].
  set (known := known_ids (history st) owner repo) in *.
  assert (Ha : is_new known a = true).
  { unfold is_new. rewrite Hida. apply negb_true_iff.
    now apply py_in_not_elem_of. }
  assert (Hb : is_new known b = true).
  { unfold is_new. rewrite Hidb. apply negb_true_iff.
    now apply py_in_not_elem_of. }
  exists (map release_of (List.filter (is_new known) pre)),
         (map release_of (List.filter (is_new known) mid)),
         (map release_of (List.filter (is_new known) post)).
  assert (Hnews : new_in w owner repo st =
            map release_of (List.filter (is_new known) pre)
            ++ release_of a :: map release_of (List.filter (is_new known) mid)
            ++ release_of b :: map release_of (List.filter (is_new known) post)).
  { rewrite Hin, Hf.
    rewrite List.filter_app. simpl. rewrite Ha.
    rewrite List.filter_app. simpl. rewrite Hb.
    rewrite map_app. simpl. rewrite map_app. reflexivity. }
  rewrite Hf in Hwf. apply Forall_app in Hwf as [_ Hwf].
  apply Forall_cons in Hwf as [Hwa Hwf].
  apply Forall_app in Hwf as [_ Hwf]. apply Forall_cons in Hwf as [Hwb _].
  split; [|split; [|split]].
  - rewrite (check_failure_None _ _ _ _ Hnone), Hnews. reflexivity.
  - rewrite exec_check_for_new_releases, stored_after_check.
    rewrite decide_True by (split; reflexivity). now rewrite Hnews.
  - now apply release_of_carries.
  - now apply release_of_carries.
Qed.

Lemma duplicate_identifier_in_one_fetch_reported_twice_witness :
  let w := Scenario.world [Scenario.R3; Scenario.R1; Scenario.R3] in
  let st := Scenario.knows_R1 in
  let st' := exec (check_for_new_releases w "acme" "widget") st in
  fetched w st "acme" "widget" = [] ++ Scenario.R3 :: [Scenario.R1] ++ Scenario.R3 :: []
  /\ known_ids (history st) "acme" "widget" = [1]
  /\ exists n1 n2 n3,
       eval (check_for_new_releases w "acme" "widget") st
       = Ok (map (fun rel => ("acme"%string, "widget"%string, rel))
               (n1 ++ release_of Scenario.R3 :: n2 ++ release_of Scenario.R3 :: n3))
       /\ stored (history st') "acme" "widget"
          = stored (history st) "acme" "widget"
            ++ n1 ++ release_of Scenario.R3 :: n2 ++ release_of Scenario.R3 :: n3
       /\ carries Scenario.R3 (release_of Scenario.R3)
       /\ carries Scenario.R3 (release_of Scenario.R3).
Proof.
  split; [reflexivity|]. split; [reflexivity|].
  apply (duplicate_identifier_in_one_fetch_reported_twice
           (Scenario.world [Scenario.R3; Scenario.R1; Scenario.R3])
           "acme" "widget" Scenario.knows_R1
           [] [Scenario.R1] [] Scenario.R3 Scenario.R3 3).
  - repeat constructor.
  - reflexivity.
  - reflexivity.
  - reflexivity.
  - intros Hin. apply py_in_elem_of in Hin. discriminate Hin.
Defined.

(** The same run, evaluated: release 3 is reported twice and stored twice. *)
Example duplicate_R3_evaluated :
  let w := Scenario.world [Scenario.R3; Scenario.R1; Scenario.R3] in
  let st := Scenario.knows_R1 in
  eval (check_for_new_releases w "acme" "widget") st
  = Ok [("acme"%string, "widget"%string, release_of Scenario.R3);
        ("acme"%string, "widget"%string, release_of Scenario.R3)]
  /\ stored (history (exec (check_for_new_releases w "acme" "widget") st))
       "acme" "widget"
     = [release_of Scenario.R1; release_of Scenario.R3;
        release_of Scenario.R3].
Proof. split; reflexivity. Qed.

(** ** A pass over all configured repositories *)

Lemma check_all_from_run w repos : forall acc st,
  check_all_from w repos acc st
  = (match all_failure w repos st with
     | None => Ok (acc ++ all_new w repos st)
     | Some e => Raise e
     end, after_all w repos st).
Proof.
  induction repos as [|[owner repo] rest IH]; intros acc st; simpl.
  - unfold ret. now rewrite app_nil_r.
  - unfold bind. rewrite check_for_new_releases_run. unfold check_result.
    destruct (check_failure w owner repo st) as [e|]; [reflexivity|].
    rewrite IH.
    destruct (all_failure w rest (after_check w owner repo st)); [reflexivity|].
    now rewrite app_assoc.
Qed.

Lemma check_all_repositories_run w repos st :
  check_all_repositories w repos st = (all_result w repos st, after_all w repos st).
Proof. unfold check_all_repositories, all_result. now rewrite check_all_from_run. Qed.

(** A pass that returns: no check raised, and the report is the gathered
    one. *)
Lemma check_all_returns w repos st new_releases :
  eval (check_all_repositories w repos) st = Ok new_releases ->
  all_failure w repos st = None /\ new_releases = all_new w repos st.
Proof.
  unfold eval. rewrite check_all_repositories_run. unfold all_result. simpl.
  destruct (all_failure w repos st); [discriminate|].
  intros H. injection H as <-. auto.
Qed.

Lemma all_failure_None w repos st :
  all_failure w repos st = None ->
  check_all_repositories w repos st = (Ok (all_new w repos st), after_all w repos st).
Proof.
  intros H. rewrite check_all_repositories_run. unfold all_result. now rewrite H.
Qed.

(** A source of well-formed records makes no check and no pass raise. *)
Lemma check_failure_well_formed_source w owner repo st :
  well_formed_source w -> check_failure w owner repo st = None.
Proof.
  intros Hwf. apply check_well_formed. apply Forall_forall.
  intros rd Hin. unfold fetched in Hin. now apply Hwf in Hin.
Qed.

Lemma all_failure_well_formed_source w repos : well_formed_source w ->
  forall st, all_failure w repos st = None.
Proof.
  intros Hwf. induction repos as [|[owner repo] rest IH]; intros st; simpl;
    [reflexivity|].
  now rewrite check_failure_well_formed_source.
Qed.

(** The trace only grows, and a check adds no Summarizer or Notifier call. *)
Lemma trace_after_check w owner repo st :
  exists evs,
    trace (after_check w owner repo st) = trace st ++ evs
    /\ pipeline_calls evs = [].
Proof.
  unfold after_check.
  assert (H1 : exists evs,
             trace (exec (get_releases w owner repo) st) = trace st ++ evs
             /\ pipeline_calls evs = []).
  { unfold exec, get_releases.
    destruct (requests_get w (clock st) owner repo); simpl.
    - exists []. now rewrite app_nil_r.
    - eexists [_]. split; reflexivity. }
  destruct H1 as (evs & Ht & Hp).
  destruct (fetched w st owner repo) as [|rd data]; [now exists evs|].
  cbv zeta.
  destruct (new_in w owner repo st) as [|r news],
           (check_failure w owner repo st) as [e|]; try (now exists evs).
  simpl. rewrite Ht. eexists (evs ++ [_]). split.
  - now rewrite app_assoc.
  - unfold pipeline_calls in *. rewrite List.filter_app, Hp. reflexivity.
Qed.

Lemma pipeline_calls_app tr1 tr2 :
  pipeline_calls (tr1 ++ tr2) = pipeline_calls tr1 ++ pipeline_calls tr2.
Proof. apply List.filter_app. Qed.

Lemma pipeline_calls_after_check w owner repo st :
  pipeline_calls (trace (after_check w owner repo st)) = pipeline_calls (trace st).
Proof.
  destruct (trace_after_check w owner repo st) as (evs & -> & Hp).
  now rewrite pipeline_calls_app, Hp, app_nil_r.
Qed.

Lemma pipeline_calls_after_all w repos : forall st,
  pipeline_calls (trace (after_all w repos st)) = pipeline_calls (trace st).
Proof.
  induction repos as [|[owner repo] rest IH]; intros st; simpl; [reflexivity|].
  destruct (check_failure w owner repo st);
    [|rewrite IH]; apply pipeline_calls_after_check.
Qed.

(** Stored releases only grow, at the end. *)
Lemma stored_prefix_after_check w owner repo owner' repo' st :
  stored (history st) owner' repo'
  `prefix_of` stored (history (after_check w owner repo st)) owner' repo'.
Proof.
  rewrite stored_after_check.
  destruct (decide _) as [[-> ->]|]; [apply prefix_app_r|]; reflexivity.
Qed.

Lemma stored_prefix_after_all w repos owner' repo' : forall st,
  stored (history st) owner' repo'
  `prefix_of` stored (history (after_all w repos st)) owner' repo'.
Proof.
  induction repos as [|[owner repo] rest IH]; intros st; simpl; [reflexivity|].
  destruct (check_failure w owner repo st);
    [apply stored_prefix_after_check|].
  etransitivity; [apply stored_prefix_after_check | apply IH].
Qed.

Lemma known_ids_prefix h h' owner repo :
  stored h owner repo `prefix_of` stored h' owner repo ->
  forall x, x ∈ known_ids h owner repo -> x ∈ known_ids h' owner repo.
Proof.
  intros [ext Hext] x. rewrite !known_ids_stored, Hext, map_app, elem_of_app.
  now left.
Qed.

(** ** Growth of the stored releases under every operation *)

Lemma grows_refl st : grows st st.
Proof. intros owner repo. reflexivity. Qed.

Lemma grows_trans st1 st2 st3 : grows st1 st2 -> grows st2 st3 -> grows st1 st3.
Proof. intros H12 H23 owner repo. etransitivity; [apply H12 | apply H23]. Qed.

Lemma grows_same_history st st' : history st' = history st -> grows st st'.
Proof. intros Hh owner repo. now rewrite Hh. Qed.

Lemma growing_ret {A} (a : A) : growing (ret a).
Proof. intros st. apply grows_refl. Qed.

Lemma growing_bind {A B} (m : M A) (k : A -> M B) :
  growing m -> (forall a, growing (k a)) -> growing (bind m k).
Proof.
  intros Hm Hk st. unfold bind. specialize (Hm st).
  destruct (m st) as [[a|e] st1]; simpl in *; [|exact Hm].
  eapply grows_trans; [exact Hm | apply Hk].
Qed.

Lemma growing_try_except {A} (body : M A) (handler : exn -> M A) :
  growing body -> (forall e, growing (handler e)) -> growing (try_except body handler).
Proof.
  intros Hb Hh st. unfold try_except. specialize (Hb st).
  destruct (body st) as [[a|e] st1]; simpl in *; [exact Hb|].
  eapply grows_trans; [exact Hb | apply Hh].
Qed.

Lemma growing_log ev : growing (log ev).
Proof. intros st. now apply grows_same_history. Qed.

Lemma growing_raise {A} e : growing (@raise A e).
Proof. intros st. apply grows_refl. Qed.

Lemma growing_save w : growing (_save_history w).
Proof. intros st. now apply grows_same_history. Qed.

Lemma growing_check_for_new_releases w owner repo :
  growing (check_for_new_releases w owner repo).
Proof.
  intros st owner' repo'. rewrite check_for_new_releases_run. simpl.
  apply stored_prefix_after_check.
Qed.

Lemma growing_check_all_repositories w repos :
  growing (check_all_repositories w repos).
Proof.
  intros st owner' repo'. rewrite check_all_repositories_run. simpl.
  apply stored_prefix_after_all.
Qed.

Lemma growing_analyze_release w owner repo release :
  growing (analyze_release w owner repo release).
Proof.
  intros st. unfold analyze_release.
  destruct (model_client_create w (clock st) owner repo release);
    now apply grows_same_history.
Qed.

Create HintDb growing.
#[local] Hint Resolve growing_ret growing_log growing_raise growing_save
  growing_check_for_new_releases growing_check_all_repositories
  growing_analyze_release : growing.
#[local] Hint Extern 2 (growing (bind _ _)) => apply growing_bind; [|intros] : growing.

Lemma growing_send_notification w recipient owner repo release content :
  growing (send_notification w recipient owner repo release content).
Proof.
  unfold send_notification. apply growing_try_except.
  - apply growing_bind.
    + intros st. unfold workbench_call_tool.
      destruct (call_tool w (clock st) _); now apply grows_same_history.
    + intros [is_error text]. simpl. destruct is_error; auto with growing.
  - intros e. auto with growing.
Qed.

Lemma growing_notify_all w self new_releases :
  growing (notify_all w self new_releases).
Proof.
  induction new_releases as [|[[owner repo] release] rest IH]; simpl.
  - apply growing_ret.
  - apply growing_bind; [apply growing_analyze_release|]. intros content.
    apply growing_bind; [apply growing_send_notification|]. intros _. exact IH.
Qed.

Lemma growing_poll_cycle w self : growing (poll_cycle w self).
Proof.
  unfold poll_cycle.
  apply growing_bind; [apply growing_check_all_repositories|]. intros news.
  apply growing_bind.
  - destruct news; [apply growing_ret | apply growing_notify_all].
  - intros _ st. now apply grows_same_history.
Qed.

Lemma growing_while_true w self n : growing (while_true w self n).
Proof.
  induction n as [|n IH]; simpl; [apply growing_ret|].
  apply growing_bind; [apply growing_poll_cycle | intros _; exact IH].
Qed.

Lemma growing_initialize w self : growing (initialize w self).
Proof.
  unfold initialize. auto with growing.
Qed.

Lemma growing_workbench_enter w : growing (workbench_enter w).
Proof.
  intros st. unfold workbench_enter.
  destruct (workbench_start w (clock st)); apply grows_refl.
Qed.

Lemma growing_start_monitoring w self n : growing (start_monitoring w self n).
Proof.
  unfold start_monitoring.
  apply growing_bind; [apply growing_initialize|]. intros _.
  apply growing_bind; [apply growing_workbench_enter|]. intros _.
  unfold on_exception. apply growing_try_except.
  - apply growing_try_except; [apply growing_while_true|].
    intros e. auto with growing.
  - intros e. auto with growing.
Qed.

(** C8. No operation of the core removes a stored release: a check of one
    repository, a pass over all of them and a save keep every repository's
    stored releases as a prefix of what is stored afterwards, and so does
    monitoring for any number of poll cycles, whether it is still running or
    was left by an exception; hence every known identifier stays known. *)
Theorem known_ids_never_shrink
    (w : World) (self : Orchestrator) (st : State) (owner repo : string) :
  (forall o r,
     stored (history st) owner repo
     `prefix_of` stored (history (exec (check_for_new_releases w o r) st)) owner repo)
  /\ (forall repos,
       stored (history st) owner repo
       `prefix_of` stored (history (exec (check_all_repositories w repos) st))
                     owner repo)
  /\ history (exec (_save_history w) st) = history st
  /\ forall n,
       let st' := exec (start_monitoring w self n) st in
       stored (history st) owner repo `prefix_of` stored (history st') owner repo
       /\ forall x, x ∈ known_ids (history st) owner repo ->
                    x ∈ known_ids (history st') owner repo.
Proof.
  split; [intros o r; apply (growing_check_for_new_releases w o r st)|].
  split; [intros repos; apply (growing_check_all_repositories w repos st)|].
  split; [reflexivity|].
  intros n st'.
  assert (Hp : stored (history st) owner repo
               `prefix_of` stored (history st') owner repo)
    by apply (growing_start_monitoring w self n st owner repo).
  split; [exact Hp | now apply known_ids_prefix].
Qed.

(** ** Cold start *)

Lemma covered_after_check w repos owner repo st :
  covered w repos (history st) ->
  covered w repos (history (after_check w owner repo st)).
Proof.
  intros Hc o r rd Hin Hrd. destruct (Hc o r rd Hin Hrd) as (z & Hr & Hz).
  exists z. split; [exact Hr|].
  eapply known_ids_prefix; [apply stored_prefix_after_check | exact Hz].
Qed.

Lemma covered_after_all_prefix w repos repos' : forall st,
  covered w repos' (history st) ->
  covered w repos' (history (after_all w repos st)).
Proof.
  induction repos as [|[owner repo] rest IH]; intros st Hc; simpl; [exact Hc|].
  destruct (check_failure w owner repo st);
    [now apply covered_after_check|].
  now apply IH, covered_after_check.
Qed.

Lemma covered_cons w owner repo rest h :
  covered w [(owner, repo)] h -> covered w rest h ->
  covered w ((owner, repo) :: rest) h.
Proof.
  intros H1 H2 o r rd Hin Hrd. apply elem_of_cons in Hin as [Heq|Hin].
  - apply H1; [|exact Hrd]. rewrite Heq. left.
  - now apply H2.
Qed.

(** After a pass that returns, over a source that answers the same data at
    all times, every record of every configured repository is readable and
    known. *)
Lemma covered_after_all w : stable_source w ->
  forall repos st,
    all_failure w repos st = None ->
    covered w repos (history (after_all w repos st)).
Proof.
  intros Hs. induction repos as [|[owner repo] rest IH]; intros st Hnone.
  - intros o r rd Hin. inversion Hin.
  - simpl in *.
    destruct (check_failure w owner repo st) eqn:Hf; [discriminate|].
    apply covered_cons; [|now apply IH].
    apply covered_after_all_prefix.
    intros o r rd Hin Hrd. apply list_elem_of_singleton in Hin.
    injection Hin as -> ->.
    apply fetched_known_after_check; [exact Hf|].
    unfold fetched. now rewrite (Hs _ 0%nat).
Qed.

(** Over such a source, a pass that starts with every record readable and
    known returns and reports nothing. *)
Lemma all_new_covered w : stable_source w ->
  forall repos st,
    covered w repos (history st) ->
    all_failure w repos st = None /\ all_new w repos st = [].
Proof.
  intros Hs. induction repos as [|[owner repo] rest IH]; intros st Hc; simpl;
    [split; reflexivity|].
  assert (Hout : scan_outcome (known_ids (history st) owner repo)
                   (fetched w st owner repo) = ([], None)).
  { apply scan_outcome_all_known. intros rd Hrd. apply Hc; [left|].
    unfold fetched in Hrd. now rewrite (Hs _ (clock st)). }
  unfold check_failure, new_in. rewrite Hout. simpl. apply IH.
  apply covered_after_check.
  intros o r rd Hin Hrd. apply Hc; [now right | assumption].
Qed.

Lemma initialize_run w self st :
  initialize w self st
  = match all_failure w (repositories self) st with
    | None => (Ok tt, exec (_save_history w) (after_all w (repositories self) st))
    | Some e => (Raise e, after_all w (repositories self) st)
    end.
Proof.
  unfold initialize, bind. rewrite check_all_repositories_run. unfold all_result.
  now destruct (all_failure w (repositories self) st).
Qed.

(** Every reported release is stored, under its repository, when the pass
    over the repositories ends. *)
Lemma all_new_stored w : forall repos st nr,
  nr ∈ all_new w repos st ->
  snd nr ∈ stored (history (after_all w repos st)) (fst (fst nr)) (snd (fst nr)).
Proof.
  induction repos as [|[owner repo] rest IH]; intros st nr Hin; simpl in *.
  - inversion Hin.
  - destruct (check_failure w owner repo st); [inversion Hin|].
    apply elem_of_app in Hin as [Hin|Hin].
    + apply list_elem_of_fmap in Hin as (rel & -> & Hrel). simpl.
      eapply elem_of_prefix; [|apply stored_prefix_after_all].
      rewrite stored_after_check, decide_True by (split; reflexivity).
      apply elem_of_app. now right.
    + now apply IH.
Qed.

(** C2, evaluated where it fails. On a cold start the source lists release
    1, a draft with no publication time, and release 3. [initialize] raises
    the validation error of the draft before its save: release 1 is known
    in memory only, nothing is written, and [start_monitoring] is left by
    that exception before its loop is entered. *)
Theorem draft_record_leaves_initialize :
  let w := Scenario.world [Scenario.R1; Scenario.draft 7 "v7.0"; Scenario.R3] in
  let st' := exec (initialize w Scenario.self) Scenario.fresh in
  eval (initialize w Scenario.self) Scenario.fresh = Raise ValidationError
  /\ known_ids (history st') "acme" "widget" = [1]
  /\ List.filter is_saved (trace st') = []
  /\ disk st' = NoFile
  /\ eval (start_monitoring w Scenario.self 3) Scenario.fresh
     = Raise ValidationError
  /\ trace (exec (start_monitoring w Scenario.self 3) Scenario.fresh) = [].
Proof. repeat split. Qed.

(** X21. When the source only answers well-formed records, [initialize]
    returns normally; every release that its pass over the configured
    repositories reports is stored as known when it ends; its trace gains
    no Summarizer or Notifier call; it ends with a save of the resulting
    history, whatever was found. If the source then answers the same data,
    the next poll cycle reports no new release and makes no Summarizer or
    Notifier call. *)
Theorem cold_start_records_without_notifying
    (w : World) (self : Orchestrator) (st : State) :
  well_formed_source w ->
  let st1 := exec (initialize w self) st in
  let st2 := exec (poll_cycle w self) st1 in
  eval (initialize w self) st = Ok tt
  /\ (exists init_releases,
        eval (check_all_repositories w (repositories self)) st = Ok init_releases
        /\ forall owner repo release,
             (owner, repo, release) ∈ init_releases ->
             release ∈ stored (history st1) owner repo)
  /\ pipeline_calls (trace st1) = pipeline_calls (trace st)
  /\ (exists tr, trace st1 = tr ++ [ESaved (history st1)])
  /\ disk st1 = Content (dump_history w (history st1))
  /\ (stable_source w ->
        eval (check_all_repositories w (repositories self)) st1 = Ok []
        /\ eval (poll_cycle w self) st1 = Ok tt
        /\ pipeline_calls (trace st2) = pipeline_calls (trace st)).
Proof.
  intros Hwf st1 st2.
  pose proof (all_failure_well_formed_source w (repositories self) Hwf st) as Hok.
  assert (Hst1 : st1 = exec (_save_history w) (after_all w (repositories self) st)).
  { subst st1. unfold exec at 1. now rewrite initialize_run, Hok. }
  assert (Hcalls : pipeline_calls (trace st1) = pipeline_calls (trace st)).
  { rewrite Hst1. simpl. rewrite pipeline_calls_app. simpl.
    now rewrite app_nil_r, pipeline_calls_after_all. }
  split; [unfold eval; now rewrite initialize_run, Hok|].
  split.
  { exists (all_new w (repositories self) st). split.
    - unfold eval. now rewrite (all_failure_None _ _ _ Hok).
    - intros owner repo release Hin. rewrite Hst1. simpl.
      apply (all_new_stored w _ _ _ Hin). }
  split; [exact Hcalls|].
  split; [rewrite Hst1; simpl; now eexists|].
  split; [rewrite Hst1; reflexivity|].
  intros Hs.
  assert (Hnone : all_failure w (repositories self) st1 = None
                  /\ all_new w (repositories self) st1 = []).
  { apply all_new_covered; [assumption|]. rewrite Hst1. simpl.
    now apply covered_after_all. }
  destruct Hnone as [Hf Hnone].
  split; [unfold eval; now rewrite (all_failure_None _ _ _ Hf), Hnone|].
  assert (Hrun : poll_cycle w self st1
                 = sleep self (after_all w (repositories self) st1)).
  { unfold poll_cycle, bind. now rewrite (all_failure_None _ _ _ Hf), Hnone. }
  split; [unfold eval; now rewrite Hrun|].
  subst st2. unfold exec. rewrite Hrun. simpl.
  rewrite pipeline_calls_app. simpl.
  now rewrite app_nil_r, pipeline_calls_after_all.
Qed.

(** The cold start of the specification's scenario: the source holds
    releases 1, 2 and 3 of [acme/widget]; after [initialize] all three are
    known and nothing was summarized or mailed, and the next poll cycle
    against the same data is silent too. *)
Lemma cold_start_records_without_notifying_witness :
  let w := Scenario.world [Scenario.R1; Scenario.raw 2 "v2.0" None; Scenario.R3] in
  let st1 := exec (initialize w Scenario.self) Scenario.fresh in
  let st2 := exec (poll_cycle w Scenario.self) st1 in
  well_formed_source w
  /\ stable_source w
  /\ known_ids (history st1) "acme" "widget" = [1; 2; 3]
  /\ pipeline_calls (trace st1) = []
  /\ eval (check_all_repositories w (repositories Scenario.self)) st1 = Ok []
  /\ eval (poll_cycle w Scenario.self) st1 = Ok tt
  /\ pipeline_calls (trace st2) = [].
Proof.
  assert (Hs : stable_source
                 (Scenario.world [Scenario.R1; Scenario.raw 2 "v2.0" None; Scenario.R3]))
    by (intros t t' owner repo; reflexivity).
  assert (Hwf : well_formed_source
                  (Scenario.world [Scenario.R1; Scenario.raw 2 "v2.0" None; Scenario.R3])).
  { intros t owner repo rd. unfold source_at. simpl.
    destruct (String.eqb owner "acme" && String.eqb repo "widget");
      intros Hin; [|inversion Hin].
    repeat (apply elem_of_cons in Hin as [->|Hin]; [reflexivity|]).
    inversion Hin. }
  split; [exact Hwf|]. split; [exact Hs|].
  split; [reflexivity|]. split; [reflexivity|].
  exact (proj2 (proj2 (proj2 (proj2 (proj2
    (cold_start_records_without_notifying
       (Scenario.world [Scenario.R1; Scenario.raw 2 "v2.0" None; Scenario.R3])
       Scenario.self Scenario.fresh Hwf))))) Hs).
Defined.

(** The end-to-end scenario of the specification: initializing finds
    release 101 and notifies nobody; the next poll finds release 102, makes
    one Summarizer call and one Notifier call for it, and saves. *)
Example end_to_end_acme_widget :
  let w := Scenario.release_102_appears in
  let r102 := release_of (Scenario.raw 102 "v1.0.2" None) in
  let st1 := exec (initialize w Scenario.self) Scenario.fresh in
  let st2 := exec (poll_cycle w Scenario.self) st1 in
  known_ids (history st1) "acme" "widget" = [101]
  /\ trace st1 = [ESaved (history st1); ESaved (history st1)]
  /\ eval (check_all_repositories w (repositories Scenario.self)) st1
     = Ok [("acme"%string, "widget"%string, r102)]
  /\ known_ids (history st2) "acme" "widget" = [101; 102]
  /\ trace st2
     = trace st1
       ++ [ESaved (history st2);
           ELlmCall "acme" "widget" r102;
           EToolCall (mkEmail "ops@example.org" "acme" "widget" r102 "<p>Summary</p>");
           ESleep 3600].
Proof. repeat split. Qed.

(** ** Empty and failed fetches *)

(** C4, as stated, fails: the check of June 2024 fetches the empty list for
    [acme/widget], and the last-check timestamp of the repository is still
    the one of January, which is no reading of the clock of that world. *)
Lemma empty_fetch_leaves_last_check_stale :
  let w := Scenario.world [] in
  let st := Scenario.knows_R1 in
  let st' := exec (check_for_new_releases w "acme" "widget") st in
  requests_get w (clock st) "acme" "widget" = Json []
  /\ eval (check_for_new_releases w "acme" "widget") st = Ok []
  /\ last_check (history st) "acme" "widget" = Some "2024-01-01T00:00:00"%string
  /\ last_check (history st') "acme" "widget" = Some "2024-01-01T00:00:00"%string
  /\ (forall t, datetime_now w t = "2024-06-01T12:00:00"%string)
  /\ (forall t, last_check (history st') "acme" "widget" <> Some (datetime_now w t)).
Proof.
  repeat split. intros t. discriminate.
Qed.

(** C4, amended. When the fetch answers the empty list, or fails,
    [check_for_new_releases] returns the empty list and leaves the whole
    history as it was, so the known identifiers are untouched and the
    last-check timestamp is not updated; the pass over the repositories goes
    on with the remaining ones from the state the check left. *)
Theorem empty_or_failed_fetch_leaves_history
    (w : World) (owner repo : string) (st : State)
    (rest : list (string * string)) :
  requests_get w (clock st) owner repo = Json []
  \/ (exists msg, requests_get w (clock st) owner repo = RequestFailed msg) ->
  let st' := exec (check_for_new_releases w owner repo) st in
  eval (check_for_new_releases w owner repo) st = Ok []
  /\ history st' = history st
  /\ known_ids (history st') owner repo = known_ids (history st) owner repo
  /\ last_check (history st') owner repo = last_check (history st) owner repo
  /\ check_all_repositories w ((owner, repo) :: rest) st
     = check_all_repositories w rest st'.
Proof.
  intros Hfetch st'.
  assert (Hf : fetched w st owner repo = []).
  { unfold fetched, source_at. destruct Hfetch as [->|[msg ->]]; reflexivity. }
  assert (Hh : history st' = history st).
  { subst st'. rewrite exec_check_for_new_releases, history_after_check.
    now rewrite Hf. }
  assert (Hres : check_result w owner repo st = Ok []).
  { unfold check_result, check_failure, new_in. now rewrite Hf. }
  split; [now rewrite eval_check_for_new_releases|].
  split; [exact Hh|]. rewrite Hh. split; [reflexivity|]. split; [reflexivity|].
  unfold check_all_repositories. simpl. unfold bind.
  rewrite check_for_new_releases_run, Hres.
  subst st'. now rewrite exec_check_for_new_releases.
Qed.

(** A failed fetch for [other/repo], listed before [acme/widget]: it is
    logged, nothing about [other/repo] is recorded, and the pass still
    reports the new release of [acme/widget]. *)
Lemma empty_or_failed_fetch_leaves_history_witness :
  let w := Scenario.world [Scenario.R1; Scenario.R3] in
  let st := Scenario.knows_R1 in
  let st' := exec (check_for_new_releases w "other" "repo") st in
  requests_get w (clock st) "other" "repo" = RequestFailed "404 Not Found"
  /\ trace st' = [ELogFetchError "other" "repo" "404 Not Found"]
  /\ history st' = history st
  /\ eval (check_all_repositories w [("other", "repo"); ("acme", "widget")]) st
     = Ok [("acme"%string, "widget"%string, release_of Scenario.R3)].
Proof.
  split; [reflexivity|]. split; [reflexivity|].
  destruct (empty_or_failed_fetch_leaves_history
              (Scenario.world [Scenario.R1; Scenario.R3]) "other" "repo"
              Scenario.knows_R1 [("acme"%string, "widget"%string)])
    as (_ & Hh & _ & _ & Hgo).
  - right. now eexists.
  - split; [exact Hh|]. unfold eval. rewrite Hgo. reflexivity.
Defined.

(** ** Failure isolation in a poll cycle *)

(** [send_notification] catches every failure of the mail tool. *)
Lemma send_notification_returns w recipient owner repo release content st :
  exists sent, eval (send_notification w recipient owner repo release content) st
               = Ok sent.
Proof.
  unfold eval, send_notification, try_except, bind, workbench_call_tool.
  destruct (call_tool w (clock st) _) as [[|] text|e]; simpl; eauto.
Qed.

(** [analyze_release] catches nothing, and neither does the loop around it:
    an exception of the model client leaves [notify_all] at once. *)
Lemma notify_all_raises w self owner repo release rest st e :
  model_client_create w (clock st) owner repo release = LlmRaises e ->
  notify_all w self ((owner, repo, release) :: rest) st
  = (Raise e, emit (ELlmCall owner repo release) (tick st)).
Proof.
  intros Hllm. simpl. unfold bind at 1. unfold analyze_release.
  now rewrite Hllm.
Qed.

(** C5, evaluated where it fails. Releases 5 and 3 of [acme/widget] are new
    and the Summarizer raises on its first call: the poll cycle is left by
    that exception after the one Summarizer call, release 5 is not mailed,
    release 3 is neither summarized nor mailed although the Summarizer would
    answer for it, and the exception leaves the monitoring loop. *)
Theorem enrichment_failure_leaves_poll_cycle :
  let w := Scenario.flaky_llm_world [Scenario.R5; Scenario.R1; Scenario.R3] in
  let st := Scenario.knows_R1 in
  eval (check_all_repositories w (repositories Scenario.self)) st
  = Ok [("acme"%string, "widget"%string, release_of Scenario.R5);
        ("acme"%string, "widget"%string, release_of Scenario.R3)]
  /\ (forall t, model_client_create w t "acme" "widget" (release_of Scenario.R3)
                = LlmContent "<p>Summary</p>" \/ (t <= 2)%nat)
  /\ eval (poll_cycle w Scenario.self) st
     = Raise (RuntimeError "rate limit exceeded")
  /\ pipeline_calls (trace (exec (poll_cycle w Scenario.self) st))
     = [ELlmCall "acme" "widget" (release_of Scenario.R5)]
  /\ eval (on_exception (while_true w Scenario.self 3) (log EClosed)) st
     = Raise (RuntimeError "rate limit exceeded").
Proof.
  split; [reflexivity|]. split.
  - intros t. simpl. destruct (t <=? 2)%nat eqn:Ht.
    + right. now apply Nat.leb_le.
    + now left.
  - repeat split.
Qed.

(** The same cycle when it is the mail tool that raises on every call: both
    releases are summarized and both mails are attempted. *)
Example notification_failure_is_isolated :
  let w := mkWorld
             (requests_get (Scenario.world [Scenario.R5; Scenario.R1; Scenario.R3]))
             (datetime_now (Scenario.world []))
             (model_client_create (Scenario.world []))
             (fun _ _ => ToolRaises (OSError "broken pipe"))
             (parse_history (Scenario.world []))
             (dump_history (Scenario.world []))
             (workbench_start (Scenario.world [])) in
  let st' := exec (poll_cycle w Scenario.self) Scenario.knows_R1 in
  eval (poll_cycle w Scenario.self) Scenario.knows_R1 = Ok tt
  /\ map (fun ev => match ev with
                    | ELlmCall _ _ release | EToolCall (mkEmail _ _ _ release _) =>
                        Release.id release
                    | _ => 0
                    end) (pipeline_calls (trace st'))
     = [5; 5; 3; 3].
Proof. split; reflexivity. Qed.

(** ** Loading the history *)

(** C6. [_load_history] always returns: the empty history when there is no
    file; the empty history, after logging the error, when the file cannot
    be read or its content does not parse as a history; the parsed history
    otherwise. It never raises. *)
Theorem load_history_never_raises (w : World) (st : State) :
  _load_history w st =
  match disk st with
  | NoFile => (Ok ReleaseHistory.empty, st)
  | Unreadable e => (Ok ReleaseHistory.empty, emit (ELogLoadError e) st)
  | Content text =>
      match parse_history w text with
      | Ok h => (Ok h, st)
      | Raise e => (Ok ReleaseHistory.empty, emit (ELogLoadError e) st)
      end
  end
  /\ forall e, eval (_load_history w) st <> Raise e.
Proof.
  assert (Hrun : _load_history w st =
    match disk st with
    | NoFile => (Ok ReleaseHistory.empty, st)
    | Unreadable e => (Ok ReleaseHistory.empty, emit (ELogLoadError e) st)
    | Content text =>
        match parse_history w text with
        | Ok h => (Ok h, st)
        | Raise e => (Ok ReleaseHistory.empty, emit (ELogLoadError e) st)
        end
    end).
  { unfold _load_history, bind, path_exists, try_except, read_file, lift, log, ret.
    destruct (disk st) as [|e|text] eqn:Hd.
    - reflexivity.
    - now rewrite Hd.
    - rewrite Hd. destruct (parse_history w text); reflexivity. }
  split; [exact Hrun|].
  intros e. unfold eval. rewrite Hrun.
  destruct (disk st) as [|e'|text]; try discriminate.
  destruct (parse_history w text); discriminate.
Qed.

(** A history file holding text that is not a history. *)
Example corrupt_history_file_loads_empty :
  let st := mkState ReleaseHistory.empty (Content "{not json") 0 [] in
  _load_history (Scenario.world []) st
  = (Ok ReleaseHistory.empty,
     emit (ELogLoadError (ValueError "Expecting value")) st).
Proof. reflexivity. Qed.

(** ** One entry per repository *)

Lemma unique_keys_ensured h owner repo :
  unique_keys h -> unique_keys (ReleaseHistory.mk (ensured h owner repo)).
Proof.
  unfold unique_keys, ensured. simpl. intros Hnd.
  destruct (tracked h owner repo) as [[k rc]|] eqn:Ht; [exact Hnd|].
  rewrite map_app. simpl. apply NoDup_app. split; [exact Hnd|].
  split; [|apply NoDup_singleton].
  intros key Hin Hnew. apply list_elem_of_singleton in Hnew as ->.
  apply list_elem_of_fmap in Hin as (rc & Hkey & Hrc).
  apply list_find_None in Ht. rewrite Forall_forall in Ht.
  apply (Ht rc Hrc). injection Hkey as Ho Hr. now split.
Qed.

(** C7. [_ensure_repo_exists] answers the position of the first entry with
    the key and changes nothing when there is one, and otherwise appends one
    empty entry and answers its position; a second call answers the same
    position and changes nothing, and so does any number of further calls;
    a history with at most one entry per key keeps that property. *)
Theorem ensure_repo_exists_idempotent (owner repo : string) (st : State) :
  let st1 := exec (_ensure_repo_exists owner repo) st in
  _ensure_repo_exists owner repo st =
    match tracked (history st) owner repo with
    | Some (k, _) => (Ok (Z.of_nat k), st)
    | None =>
        (Ok (Z.of_nat (length (ReleaseHistory.repositories (history st)))),
         set_history
           (ReleaseHistory.mk
              (ReleaseHistory.repositories (history st)
               ++ [RepoConfig.new owner repo]))
           st)
    end
  /\ _ensure_repo_exists owner repo st1
     = (eval (_ensure_repo_exists owner repo) st, st1)
  /\ (forall n, Nat.iter n (exec (_ensure_repo_exists owner repo)) st1 = st1)
  /\ (unique_keys (history st) -> unique_keys (history st1)).
Proof.
  intros st1.
  assert (Hst1 : st1 = set_history
                         (ReleaseHistory.mk (ensured (history st) owner repo)) st).
  { subst st1. unfold exec. now rewrite _ensure_repo_exists_run. }
  assert (Htwice : _ensure_repo_exists owner repo st1
                   = (eval (_ensure_repo_exists owner repo) st, st1)).
  { unfold eval. rewrite !_ensure_repo_exists_run. simpl. rewrite Hst1. simpl.
    destruct (tracked_ensured (history st) owner repo) as (rc & Ht & _).
    remember (ReleaseHistory.mk (ensured (history st) owner repo)) as h1 eqn:Hh1.
    unfold ensured_index at 1, ensured at 1. rewrite Ht. now subst h1. }
  split.
  { rewrite _ensure_repo_exists_run. unfold ensured_index, ensured.
    destruct (tracked (history st) owner repo) as [[k rc]|]; [|reflexivity].
    now rewrite set_history_same. }
  split; [exact Htwice|]. split.
  - induction n as [|n IH]; simpl; [reflexivity|].
    rewrite IH. unfold exec. now rewrite Htwice.
  - intros Hu. rewrite Hst1. simpl. now apply unique_keys_ensured.
Qed.

Lemma ensure_repo_exists_idempotent_witness :
  let st := Scenario.fresh in
  let st1 := exec (_ensure_repo_exists "acme" "widget") st in
  unique_keys (history st)
  /\ ReleaseHistory.repositories (history st1) = [RepoConfig.new "acme" "widget"]
  /\ _ensure_repo_exists "acme" "widget" st1 = (Ok 0, st1)
  /\ unique_keys (history st1).
Proof.
  assert (Hu : unique_keys (history Scenario.fresh)) by apply NoDup_nil_2.
  split; [exact Hu|]. split; [reflexivity|].
  destruct (ensure_repo_exists_idempotent "acme" "widget" Scenario.fresh)
    as (_ & Htwice & _ & Hkeep).
  split; [exact Htwice | exact (Hkeep Hu)].
Defined.

(** ** Code fences *)

Lemma prefix_cons a p b s :
  String.prefix (String a p) (String b s)
  = if ascii_dec a b then String.prefix p s else false.
Proof. reflexivity. Qed.

Lemma prefix_nil_l s : String.prefix "" s = true.
Proof. now destruct s. Qed.

Lemma prefix_app p b : String.prefix p (p ++ b) = true.
Proof.
  induction p as [|c p IH]; [apply prefix_nil_l|].
  change (String c p ++ b)%string with (String c (p ++ b)). rewrite prefix_cons.
  destruct (ascii_dec c c); [exact IH | congruence].
Qed.

Lemma contains_has_substring pat s : contains pat s -> has_substring pat s = true.
Proof.
  intros (a & b & ->). induction a as [|c a IH].
  - change ("" ++ pat ++ b)%string with (pat ++ b)%string.
    destruct (pat ++ b)%string eqn:E; cbn [has_substring];
      rewrite <- E, prefix_app; reflexivity.
  - change (String c a ++ pat ++ b)%string with (String c (a ++ pat ++ b)).
    cbn [has_substring]. rewrite IH. apply orb_true_r.
Qed.

Lemma re_sub_remove_cons_skip pat k c s :
  re_sub_remove pat (S k) (String c s) = re_sub_remove pat k s.
Proof. reflexivity. Qed.

Lemma re_sub_remove_cons pat c s :
  re_sub_remove pat O (String c s)
  = if String.prefix pat (String c s)
    then re_sub_remove pat (Nat.pred (String.length pat)) s
    else String c (re_sub_remove pat O s).
Proof. reflexivity. Qed.

Lemma fence_head1 s :
  String.prefix "`" s = false ->
  String.prefix "`" (re_sub_remove fence O s) = false.
Proof.
  destruct s as [|c s]; [reflexivity|].
  rewrite re_sub_remove_cons. unfold fence. rewrite !prefix_cons.
  destruct (ascii_dec "`" c) as [Hc|Hc]; [rewrite prefix_nil_l; discriminate|].
  intros _. rewrite prefix_cons. now destruct (ascii_dec "`" c).
Qed.

Lemma fence_head2 s :
  String.prefix "``" s = false ->
  String.prefix "``" (re_sub_remove fence O s) = false.
Proof.
  destruct s as [|c s]; [reflexivity|].
  rewrite re_sub_remove_cons. unfold fence. rewrite !prefix_cons.
  destruct (ascii_dec "`" c) as [Hc|Hc].
  - intros H1.
    assert (H2 : String.prefix "``" s = false).
    { destruct s as [|d s]; [reflexivity|]. rewrite prefix_cons in *.
      destruct (ascii_dec "`" d); [|reflexivity].
      rewrite prefix_nil_l in H1. discriminate. }
    rewrite H2. rewrite prefix_cons. destruct (ascii_dec "`" c); [|congruence].
    now apply fence_head1.
  - intros _. rewrite prefix_cons. now destruct (ascii_dec "`" c).
Qed.

Lemma re_sub_remove_fence_free s : forall k,
  has_substring fence (re_sub_remove fence k s) = false.
Proof.
  induction s as [|c s IH]; intros k; [reflexivity|].
  destruct k as [|k]; [|rewrite re_sub_remove_cons_skip; apply IH].
  rewrite re_sub_remove_cons.
  destruct (String.prefix fence (String c s)) eqn:Hp; [apply IH|].
  cbn [has_substring]. rewrite IH, orb_false_r.
  unfold fence in *. rewrite prefix_cons in *.
  destruct (ascii_dec "`" c); [|reflexivity].
  now apply fence_head2.
Qed.

Lemma strip_fences_fence_free s : ~ contains "```" (strip_fences s).
Proof.
  intros Hc. apply contains_has_substring in Hc.
  unfold strip_fences in Hc.
  now rewrite (re_sub_remove_fence_free _ 0%nat) in Hc.
Qed.

(** X10. The text left by [strip_fences] contains no code fence, whatever
    the input: removing the fences does not bring new ones together. *)
Theorem strip_fences_no_fence s : ~ contains "```" (strip_fences s).
Proof. exact (strip_fences_fence_free s). Qed.

Lemma prefix_shorter p q s :
  String.prefix (p ++ q) s = true -> String.prefix p s = true.
Proof.
  revert s. induction p as [|c p IH]; intros s H; [apply prefix_nil_l|].
  change (String c p ++ q)%string with (String c (p ++ q)) in H.
  destruct s as [|d s]; [discriminate|].
  rewrite prefix_cons in *. destruct (ascii_dec c d); [now apply IH | discriminate].
Qed.

Lemma has_substring_shorter p q s :
  has_substring p s = false -> has_substring (p ++ q) s = false.
Proof.
  induction s as [|c s IH]; cbn [has_substring]; intros H;
    apply orb_false_iff in H as [Hp Hs]; apply orb_false_iff; split; auto.
  - destruct (String.prefix (p ++ q) "") eqn:E; [|reflexivity].
    apply prefix_shorter in E. congruence.
  - destruct (String.prefix (p ++ q) (String c s)) eqn:E; [|reflexivity].
    apply prefix_shorter in E. congruence.
Qed.

(** Removing a pattern that does not occur changes nothing. *)
Lemma re_sub_remove_absent pat s :
  has_substring pat s = false -> re_sub_remove pat O s = s.
Proof.
  induction s as [|c s IH]; [reflexivity|].
  cbn [has_substring]. intros H. apply orb_false_iff in H as [Hp Hs].
  rewrite re_sub_remove_cons, Hp. now rewrite IH.
Qed.

(** X11. Stripping fences twice is stripping them once, so the second
    cleaning, in [send_notification], leaves the text returned by
    [analyze_release] as it is. *)
Theorem strip_fences_idempotent s : strip_fences (strip_fences s) = strip_fences s.
Proof.
  assert (Hfree : has_substring fence (strip_fences s) = false)
    by apply (re_sub_remove_fence_free _ 0%nat).
  unfold strip_fences at 1.
  rewrite (re_sub_remove_absent "```html").
  - now apply re_sub_remove_absent.
  - now apply (has_substring_shorter fence "html").
Qed.

(** ** The tracker, operation by operation *)

(** X1. [_get_repo_index] returns, without changing the state, either -1,
    exactly when no entry has the key, or a position inside the list whose
    entry has the key and before which no entry has it. *)
Theorem get_repo_index_first_match (owner repo : string) (st : State) :
  let repos := ReleaseHistory.repositories (history st) in
  exists i,
    _get_repo_index owner repo st = (Ok i, st)
    /\ (i = -1 <-> forall rc, rc ∈ repos -> ~ has_key owner repo rc)
    /\ (i <> -1 ->
        0 <= i < Z.of_nat (length repos)
        /\ (exists rc, repos !! Z.to_nat i = Some rc /\ has_key owner repo rc)
        /\ forall j rc, (j < Z.to_nat i)%nat -> repos !! j = Some rc ->
                        ~ has_key owner repo rc).
Proof.
  intros repos. rewrite _get_repo_index_run. unfold tracked. fold repos.
  destruct (list_find (has_key owner repo) repos) as [[k rc]|] eqn:Hf.
  - exists (Z.of_nat k). split; [reflexivity|].
    apply list_find_Some in Hf as (Hl & Hk & Hfirst). split.
    + split; [lia|]. intros Hnone. exfalso.
      apply (Hnone rc); [|exact Hk]. apply list_elem_of_lookup. eauto.
    + intros _. rewrite Nat2Z.id. split; [|split].
      * apply lookup_lt_Some in Hl. lia.
      * eauto.
      * intros j rc' Hj Hl'. eapply Hfirst; eauto.
  - exists (-1). split; [reflexivity|]. split; [|congruence].
    split; [|reflexivity]. intros _.
    apply list_find_None in Hf. now rewrite Forall_forall in Hf.
Qed.

(** X2. The position that [_ensure_repo_exists] returns is inside the list
    it leaves, the entry there has the key, so the subscripts
    [self.history.repositories[repo_index]] that follow in
    [check_for_new_releases] raise no [IndexError]; the entries present
    before are kept in place and at most one entry is added. *)
Theorem ensure_repo_exists_postcondition (owner repo : string) (st : State) :
  let repos := ReleaseHistory.repositories (history st) in
  let st' := exec (_ensure_repo_exists owner repo) st in
  let repos' := ReleaseHistory.repositories (history st') in
  exists k rc,
    eval (_ensure_repo_exists owner repo) st = Ok (Z.of_nat k)
    /\ repos' !! k = Some rc
    /\ has_key owner repo rc
    /\ py_position repos' (Z.of_nat k) = Some k
    /\ repos `prefix_of` repos'
    /\ (length repos' <= S (length repos))%nat.
Proof.
  intros repos st' repos'.
  assert (Hr : repos' = ensured (history st) owner repo).
  { subst repos' st'. unfold exec. now rewrite _ensure_repo_exists_run. }
  destruct (ensured_lookup (history st) owner repo) as (rc & Hl & Hk & _).
  exists (ensured_index (history st) owner repo), rc.
  split; [unfold eval; now rewrite _ensure_repo_exists_run|].
  rewrite Hr. split; [exact Hl|]. split; [exact Hk|].
  split; [apply py_position_nonneg, ensured_index_bound|].
  unfold ensured. fold repos.
  destruct (tracked (history st) owner repo) as [[k rc']|].
  - split; [reflexivity | lia].
  - split; [now apply prefix_app_r|]. rewrite length_app. simpl. lia.
Qed.

Lemma clock_get_releases w owner repo st :
  clock (exec (get_releases w owner repo) st) = S (clock st).
Proof.
  unfold exec, get_releases.
  now destruct (requests_get w (clock st) owner repo).
Qed.

Lemma tracked_after_check w owner repo st :
  fetched w st owner repo <> [] ->
  exists rc,
    tracked (history (after_check w owner repo st)) owner repo
    = Some (ensured_index (history st) owner repo,
            extend (new_in w owner repo st)
              (RepoConfig.set_latest_check (datetime_now w (S (clock st))) rc))
    /\ RepoConfig.releases rc = stored (history st) owner repo.
Proof.
  intros Hne. rewrite history_after_check.
  destruct (fetched w st owner repo) as [|rd data]; [congruence|].
  unfold tracked at 1. simpl.
  rewrite list_find_alter_keys by (intros rc; apply has_key_set_latest_check).
  destruct (tracked_ensured (history st) owner repo) as (rc & Ht & Hrel).
  unfold tracked in Ht. simpl in Ht. rewrite Ht.
  rewrite decide_True by reflexivity. rewrite clock_get_releases. eauto.
Qed.

(** X3. After a fetch that is not empty, the last-check timestamp of the
    repository is the reading of the clock taken right after the fetch,
    whether or not a release was new; the call makes two external calls. *)
Theorem nonempty_fetch_updates_last_check
    (w : World) (owner repo : string) (st : State) :
  fetched w st owner repo <> [] ->
  let st' := exec (check_for_new_releases w owner repo) st in
  last_check (history st') owner repo = Some (datetime_now w (S (clock st)))
  /\ clock st' = S (S (clock st)).
Proof.
  intros Hne st'. subst st'. rewrite exec_check_for_new_releases. split.
  - destruct (tracked_after_check w owner repo st Hne) as (rc & Ht & _).
    unfold last_check. now rewrite Ht.
  - unfold after_check.
    destruct (fetched w st owner repo) as [|rd data]; [congruence|].
    cbv zeta.
    destruct (new_in w owner repo st), (check_failure w owner repo st); simpl;
      now rewrite clock_get_releases.
Qed.

(** X4. [check_for_new_releases] writes the history file exactly when it
    reports a release: when it reports nothing or raises, no save happens
    and the file is as before; otherwise exactly one save happens, it is
    the last effect of the call, and what it writes is the history the call
    leaves. *)
Theorem check_for_new_releases_saves_iff_new
    (w : World) (owner repo : string) (st : State) :
  let st' := exec (check_for_new_releases w owner repo) st in
  exists evs,
    trace st' = trace st ++ evs
    /\ match eval (check_for_new_releases w owner repo) st with
       | Ok (_ :: _) =>
           List.filter is_saved evs = [ESaved (history st')]
           /\ last evs = Some (ESaved (history st'))
           /\ disk st' = Content (dump_history w (history st'))
       | Ok [] | Raise _ => List.filter is_saved evs = [] /\ disk st' = disk st
       end.
Proof.
  intros st'. subst st'.
  rewrite exec_check_for_new_releases, eval_check_for_new_releases.
  assert (H1 : exists evs,
             trace (exec (get_releases w owner repo) st) = trace st ++ evs
             /\ List.filter is_saved evs = []
             /\ disk (exec (get_releases w owner repo) st) = disk st).
  { unfold exec, get_releases.
    destruct (requests_get w (clock st) owner repo); simpl.
    - exists []. now rewrite app_nil_r.
    - eexists [_]. repeat split. }
  destruct H1 as (evs & Ht & Hs & Hd).
  unfold after_check, check_result.
  destruct (fetched w st owner repo) as [|rd data] eqn:Hf.
  - exists evs. unfold check_failure, new_in. rewrite Hf. simpl. auto.
  - cbv zeta.
    destruct (new_in w owner repo st) as [|r news] eqn:Hn,
             (check_failure w owner repo st) as [e|]; simpl;
      try (exists evs; now auto).
    eexists (evs ++ [_]). rewrite Ht, <- app_assoc.
    split; [reflexivity|].
    rewrite List.filter_app, Hs, last_snoc. simpl. auto.
Qed.

Lemma map_key_alter (f : RepoConfig.t -> RepoConfig.t) k repos :
  (forall rc, RepoConfig.owner (f rc) = RepoConfig.owner rc
              /\ RepoConfig.repo (f rc) = RepoConfig.repo rc) ->
  map (fun rc => (RepoConfig.owner rc, RepoConfig.repo rc)) (alter f k repos)
  = map (fun rc => (RepoConfig.owner rc, RepoConfig.repo rc)) repos.
Proof.
  intros Hf. revert k. induction repos as [|x rest IH]; intros [|k]; simpl;
    try reflexivity.
  - destruct (Hf x) as [-> ->]. reflexivity.
  - f_equal. apply IH.
Qed.

Lemma unique_keys_after_check w owner repo st :
  unique_keys (history st) -> unique_keys (history (after_check w owner repo st)).
Proof.
  intros Hu. rewrite history_after_check.
  destruct (fetched w st owner repo) as [|rd data]; [exact Hu|].
  unfold unique_keys. simpl. rewrite map_key_alter by (intros rc; split; reflexivity).
  now apply (unique_keys_ensured (history st) owner repo).
Qed.

(** X5. A check never removes or moves an entry: every entry present before
    is found at the same position afterwards, with the same owner and repo
    and with its releases extended at the end; an entry of another
    repository is left exactly as it was, its timestamp included. *)
Theorem check_for_new_releases_keeps_other_entries
    (w : World) (owner repo : string) (st : State) (i : nat) (rc : RepoConfig.t) :
  ReleaseHistory.repositories (history st) !! i = Some rc ->
  let st' := exec (check_for_new_releases w owner repo) st in
  exists rc',
    ReleaseHistory.repositories (history st') !! i = Some rc'
    /\ RepoConfig.owner rc' = RepoConfig.owner rc
    /\ RepoConfig.repo rc' = RepoConfig.repo rc
    /\ RepoConfig.releases rc `prefix_of` RepoConfig.releases rc'
    /\ (~ has_key owner repo rc -> rc' = rc).
Proof.
  intros Hl st'. subst st'.
  rewrite exec_check_for_new_releases, history_after_check.
  destruct (fetched w st owner repo) as [|rd data].
  { exists rc. repeat split; auto. }
  simpl.
  assert (He : ensured (history st) owner repo !! i = Some rc).
  { unfold ensured. destruct (tracked (history st) owner repo); [exact Hl|].
    now apply lookup_app_l_Some. }
  rewrite list_lookup_alter.
  destruct (decide (ensured_index (history st) owner repo = i)) as [Hi|Hi].
  - rewrite Hi, He. simpl. eexists. split; [reflexivity|].
    split; [reflexivity|]. split; [reflexivity|].
    split; [simpl; now apply prefix_app_r|].
    intros Hk. exfalso. apply Hk.
    destruct (ensured_lookup (history st) owner repo) as (rc0 & Hl0 & Hk0 & _).
    rewrite Hi, He in Hl0. now injection Hl0 as ->.
  - exists rc. rewrite He. repeat split; auto.
Qed.

(** ** Invariants of the history *)

Lemma pure_history_ret {A} (a : A) : pure_history (ret a).
Proof. now intros st. Qed.

Lemma pure_history_raise {A} e : pure_history (@raise A e).
Proof. now intros st. Qed.

Lemma pure_history_log ev : pure_history (log ev).
Proof. now intros st. Qed.

Lemma pure_history_bind {A B} (m : M A) (k : A -> M B) :
  pure_history m -> (forall a, pure_history (k a)) -> pure_history (bind m k).
Proof.
  intros Hm Hk st. unfold bind. specialize (Hm st).
  destruct (m st) as [[a|e] st1]; simpl in *; [|exact Hm].
  now rewrite Hk.
Qed.

Lemma pure_history_try_except {A} (body : M A) (handler : exn -> M A) :
  pure_history body -> (forall e, pure_history (handler e)) ->
  pure_history (try_except body handler).
Proof.
  intros Hb Hh st. unfold try_except. specialize (Hb st).
  destruct (body st) as [[a|e] st1]; simpl in *; [exact Hb|].
  now rewrite Hh.
Qed.

Lemma pure_history_analyze_release w owner repo release :
  pure_history (analyze_release w owner repo release).
Proof.
  intros st. unfold analyze_release.
  now destruct (model_client_create w (clock st) owner repo release).
Qed.

Lemma pure_history_workbench_call_tool w req :
  pure_history (workbench_call_tool w req).
Proof.
  intros st. unfold workbench_call_tool.
  now destruct (call_tool w (clock st) req).
Qed.

Lemma pure_history_send_notification w recipient owner repo release content :
  pure_history (send_notification w recipient owner repo release content).
Proof.
  unfold send_notification. apply pure_history_try_except.
  - apply pure_history_bind; [apply pure_history_workbench_call_tool|].
    intros [[|] text]; simpl.
    + apply pure_history_bind; [apply pure_history_log|].
      intros; apply pure_history_ret.
    + apply pure_history_ret.
  - intros e. apply pure_history_bind; [apply pure_history_log|].
    intros; apply pure_history_ret.
Qed.

Lemma pure_history_notify_all w self new_releases :
  pure_history (notify_all w self new_releases).
Proof.
  induction new_releases as [|[[owner repo] release] rest IH]; simpl.
  - apply pure_history_ret.
  - apply pure_history_bind; [apply pure_history_analyze_release|]. intros c.
    apply pure_history_bind; [apply pure_history_send_notification|].
    intros _. exact IH.
Qed.

(** Whatever its outcome, a poll cycle leaves the history that its pass over
    the repositories built. *)
Lemma history_poll_cycle w self st :
  history (snd (poll_cycle w self st))
  = history (after_all w (repositories self) st).
Proof.
  unfold poll_cycle, bind. rewrite check_all_repositories_run.
  unfold all_result.
  set (st1 := after_all w (repositories self) st).
  destruct (all_failure w (repositories self) st); [reflexivity|].
  destruct (all_new w (repositories self) st) as [|nr news] eqn:Hn.
  - reflexivity.
  - pose proof (pure_history_notify_all w self (nr :: news) st1) as Hp.
    destruct (notify_all w self (nr :: news) st1) as [[[]|e] st2];
      simpl in *; exact Hp.
Qed.

Lemma keeps_ret P {A} (a : A) : keeps P (ret a).
Proof. now intros st. Qed.

Lemma keeps_bind P {A B} (m : M A) (k : A -> M B) :
  keeps P m -> (forall a, keeps P (k a)) -> keeps P (bind m k).
Proof.
  intros Hm Hk st HP. unfold bind. specialize (Hm st HP).
  destruct (m st) as [[a|e] st1]; simpl in *; [|exact Hm].
  now apply Hk.
Qed.

Lemma keeps_pure P {A} (m : M A) : pure_history m -> keeps P m.
Proof. intros Hm st HP. now rewrite Hm. Qed.

Lemma keeps_try_except P {A} (body : M A) (handler : exn -> M A) :
  keeps P body -> (forall e, keeps P (handler e)) -> keeps P (try_except body handler).
Proof.
  intros Hb Hh st HP. unfold try_except. specialize (Hb st HP).
  destruct (body st) as [[a|e] st1]; simpl in *; [exact Hb|].
  now apply Hh.
Qed.

Lemma keeps_unique_keys_check w owner repo :
  keeps unique_keys (check_for_new_releases w owner repo).
Proof.
  intros st Hu. rewrite check_for_new_releases_run. simpl.
  now apply unique_keys_after_check.
Qed.

Lemma unique_keys_after_all w repos : forall st,
  unique_keys (history st) -> unique_keys (history (after_all w repos st)).
Proof.
  induction repos as [|[owner repo] rest IH]; intros st Hu; simpl; [exact Hu|].
  destruct (check_failure w owner repo st);
    [now apply unique_keys_after_check|].
  now apply IH, unique_keys_after_check.
Qed.

Lemma keeps_unique_keys_check_all w repos :
  keeps unique_keys (check_all_repositories w repos).
Proof.
  intros st Hu. rewrite check_all_repositories_run. simpl.
  now apply unique_keys_after_all.
Qed.

Lemma keeps_unique_keys_poll_cycle w self : keeps unique_keys (poll_cycle w self).
Proof.
  intros st Hu. rewrite history_poll_cycle. now apply unique_keys_after_all.
Qed.

Lemma keeps_unique_keys_while_true w self n :
  keeps unique_keys (while_true w self n).
Proof.
  induction n as [|n IH]; simpl; [apply keeps_ret|].
  apply keeps_bind; [apply keeps_unique_keys_poll_cycle | intros _; exact IH].
Qed.

(** X6. A history with at most one entry per key keeps that property under
    one check, under a pass over any list of repositories, and under
    monitoring for any number of poll cycles, however the cycles end. *)
Theorem unique_keys_invariant
    (w : World) (self : Orchestrator) (st : State) :
  unique_keys (history st) ->
  (forall owner repo,
     unique_keys (history (exec (check_for_new_releases w owner repo) st)))
  /\ (forall repos,
        unique_keys (history (exec (check_all_repositories w repos) st)))
  /\ (forall n, unique_keys (history (exec (start_monitoring w self n) st))).
Proof.
  intros Hu. split; [|split].
  - intros owner repo. now apply (keeps_unique_keys_check w owner repo st).
  - intros repos. now apply (keeps_unique_keys_check_all w repos st).
  - intros n. revert st Hu. change (keeps unique_keys (start_monitoring w self n)).
    unfold start_monitoring, initialize.
    apply keeps_bind.
    + apply keeps_bind; [apply keeps_unique_keys_check_all|].
      intros _. apply keeps_pure. now intros st.
    + intros _. apply keeps_bind.
      { apply keeps_pure. intros st. unfold workbench_enter.
        now destruct (workbench_start w (clock st)). }
      intros _. unfold on_exception.
      assert (Hc : forall ev (e : exn),
                 keeps unique_keys (bind (log ev) (fun _ => @raise unit e))).
      { intros ev e. apply keeps_pure.
        apply pure_history_bind; [apply pure_history_log|].
        intros; apply pure_history_raise. }
      repeat apply keeps_try_except; auto.
      apply keeps_unique_keys_while_true.
Qed.

Lemma scan_outcome_NoDup known releases_data :
  NoDup (map RawRelease.id releases_data) ->
  NoDup (map Release.id (fst (scan_outcome known releases_data))).
Proof.
  induction releases_data as [|rd rest IH]; intros Hnd; simpl; [constructor|].
  apply NoDup_cons in Hnd as [Hnot Hnd].
  destruct (scan_step known rd) as [[r|]|e] eqn:Hstep; simpl;
    [|now apply IH|constructor].
  apply NoDup_cons. split; [|now apply IH].
  apply scan_step_Some in Hstep as (Hwf & -> & _).
  intros Hin. apply Hnot.
  apply list_elem_of_fmap in Hin as (release & Heq & Hrel).
  apply scan_outcome_appended in Hrel as (_ & rd' & Hrd' & Hwf' & ->).
  rewrite (well_formed_id rd Hwf), Heq, <- (well_formed_id rd' Hwf').
  now apply list_elem_of_fmap_2.
Qed.

(** X7. If the known identifiers of a repository are pairwise distinct and
    the fetched list repeats no identifier, the known identifiers are
    pairwise distinct after the check, whether it returns or raises. *)
Theorem distinct_fetched_ids_keep_known_ids_distinct
    (w : World) (owner repo : string) (st : State) :
  NoDup (known_ids (history st) owner repo) ->
  NoDup (map RawRelease.id (fetched w st owner repo)) ->
  let st' := exec (check_for_new_releases w owner repo) st in
  NoDup (known_ids (history st') owner repo).
Proof.
  intros Hk Hf st'. subst st'.
  rewrite exec_check_for_new_releases, known_ids_after_check.
  apply NoDup_app. split; [exact Hk|]. unfold new_in. split.
  - intros x Hx Hin. apply list_elem_of_fmap in Hin as (release & -> & Hrel).
    apply scan_outcome_appended in Hrel as [Hnew _]. now apply Hnew.
  - now apply scan_outcome_NoDup.
Qed.

(** X8. What [check_for_new_releases] reports is what it records: when it
    returns, every reported tuple carries the checked owner and repo, and
    the stored releases of the repository afterwards are those before
    followed by the reported releases, in the reported order. It returns
    whenever the fetched records are well formed. *)
Theorem reported_releases_are_the_appended_ones
    (w : World) (owner repo : string) (st : State) :
  let st' := exec (check_for_new_releases w owner repo) st in
  (forall new_releases,
     eval (check_for_new_releases w owner repo) st = Ok new_releases ->
     (forall nr, nr ∈ new_releases -> fst nr = (owner, repo))
     /\ stored (history st') owner repo
        = stored (history st) owner repo ++ map snd new_releases)
  /\ (Forall (fun rd => well_formed rd = true) (fetched w st owner repo) ->
      exists new_releases,
        eval (check_for_new_releases w owner repo) st = Ok new_releases).
Proof.
  intros st'. subst st'. split.
  - intros new_releases Hret. apply check_returns in Hret as [_ ->]. split.
    + intros nr Hin. now apply list_elem_of_fmap in Hin as (rel & -> & _).
    + rewrite exec_check_for_new_releases, stored_after_check.
      rewrite decide_True by (split; reflexivity).
      rewrite map_map. simpl. now rewrite map_id.
  - intros Hwf. eexists. rewrite eval_check_for_new_releases.
    unfold check_result.
    destruct (check_well_formed w owner repo st Hwf) as [-> _]. reflexivity.
Qed.

Lemma all_app w l1 l2 : forall st,
  all_failure w (l1 ++ l2) st
  = match all_failure w l1 st with
    | Some e => Some e
    | None => all_failure w l2 (after_all w l1 st)
    end
  /\ after_all w (l1 ++ l2) st
     = match all_failure w l1 st with
       | Some _ => after_all w l1 st
       | None => after_all w l2 (after_all w l1 st)
       end
  /\ (all_failure w l1 st = None ->
      all_new w (l1 ++ l2) st
      = all_new w l1 st ++ all_new w l2 (after_all w l1 st)).
Proof.
  induction l1 as [|[o r] l1 IH]; intros st; simpl; [auto|].
  destruct (check_failure w o r st) as [e|]; [repeat split; discriminate|].
  destruct (IH (after_check w o r st)) as (Hf & Ha & Hn).
  repeat split; [exact Hf|exact Ha|].
  intros Hnone. now rewrite (Hn Hnone), app_assoc.
Qed.

(** X9. [check_all_repositories] works through the list in order and
    stops at the first check that raises: over [repos1 ++ repos2], when the
    pass over [repos1] raises, that exception leaves the whole pass in the
    state reached there and [repos2] is not looked at; when it returns,
    the pass over [repos2] runs from the state it left, and the whole pass
    returns the two reports one after the other, or raises what the second
    pass raises. *)
Theorem check_all_repositories_app
    (w : World) (repos1 repos2 : list (string * string)) (st : State) :
  let st1 := exec (check_all_repositories w repos1) st in
  check_all_repositories w (repos1 ++ repos2) st
  = match eval (check_all_repositories w repos1) st with
    | Raise e => (Raise e, st1)
    | Ok r1 =>
        (match eval (check_all_repositories w repos2) st1 with
         | Ok r2 => Ok (r1 ++ r2)
         | Raise e => Raise e
         end,
         exec (check_all_repositories w repos2) st1)
    end.
Proof.
  intros st1. subst st1. unfold eval, exec.
  rewrite !check_all_repositories_run. unfold all_result. simpl.
  destruct (all_app w repos1 repos2 st) as (Hf & Ha & Hn).
  rewrite Hf, Ha.
  destruct (all_failure w repos1 st) as [e|]; [reflexivity|].
  rewrite (Hn eq_refl).
  now destruct (all_failure w repos2 (after_all w repos1 st)).
Qed.

(** ** The enrich and notify pipeline *)

Lemma send_notification_run
    (w : World) (recipient owner repo : string) (release : Release.t)
    (content_analysis : string) (st : State) :
  let req := mkEmail recipient owner repo release (strip_fences content_analysis) in
  let st' := exec (send_notification w recipient owner repo release content_analysis) st in
  exists sent evs,
    eval (send_notification w recipient owner repo release content_analysis) st
    = Ok sent
    /\ (sent = true <-> exists text, call_tool w (clock st) req = ToolResult false text)
    /\ trace st' = trace st ++ EToolCall req :: evs
    /\ calls evs = []
    /\ (sent = false -> evs <> [])
    /\ history st' = history st
    /\ clock st' = S (clock st).
Proof.
  intros req st'. subst st'.
  unfold eval, exec, send_notification, try_except, bind, workbench_call_tool.
  fold req.
  destruct (call_tool w (clock st) req) as [[|] text|e] eqn:Hc; simpl.
  - exists false, [ELogEmailError text]. rewrite <- app_assoc.
    split; [reflexivity|]. split; [split; [discriminate | now intros [t Ht]]|].
    repeat split; discriminate.
  - exists true, []. split; [reflexivity|]. split; [split; eauto|].
    repeat split; try discriminate.
  - exists false, [ELogEmailFailed e]. rewrite <- app_assoc.
    split; [reflexivity|]. split; [split; [discriminate | now intros [t Ht]]|].
    repeat split; discriminate.
Qed.

(** X12. Whatever the mail tool does, [send_notification] returns: it
    makes exactly one call of the tool, for the given recipient, repository
    and release; it returns [True] exactly when the tool answers without
    error, and otherwise logs the failure and returns [False]. The history
    is untouched. *)
Theorem send_notification_outcome
    (w : World) (recipient owner repo : string) (release : Release.t)
    (content_analysis : string) (st : State) :
  let st' := exec (send_notification w recipient owner repo release content_analysis) st in
  exists sent req evs,
    eval (send_notification w recipient owner repo release content_analysis) st
    = Ok sent
    /\ call_of (EToolCall req) = Some (Mail recipient (owner, repo, release))
    /\ (sent = true <-> exists text, call_tool w (clock st) req = ToolResult false text)
    /\ trace st' = trace st ++ EToolCall req :: evs
    /\ calls evs = []
    /\ (sent = false -> evs <> [])
    /\ history st' = history st.
Proof.
  intros st'. subst st'.
  destruct (send_notification_run w recipient owner repo release
              content_analysis st)
    as (sent & evs & Hev & Hsent & Htr & Hcalls & Hlog & Hh & _).
  exists sent, (mkEmail recipient owner repo release (strip_fences content_analysis)),
    evs.
  repeat split; auto; apply Hsent.
Qed.

Lemma calls_app tr1 tr2 : calls (tr1 ++ tr2) = calls tr1 ++ calls tr2.
Proof. apply omap_app. Qed.

Lemma notify_all_answers w self : llm_answers w ->
  forall new_releases st,
    exists st' evs,
      notify_all w self new_releases st = (Ok tt, st')
      /\ trace st' = trace st ++ evs
      /\ calls evs
         = flat_map (fun nr => [Summarize nr; Mail (recipient_email self) nr])
             new_releases.
Proof.
  intros Hllm. induction new_releases as [|[[owner repo] release] rest IH];
    intros st.
  - exists st, []. simpl. now rewrite app_nil_r.
  - simpl. unfold bind at 1. unfold analyze_release.
    destruct (Hllm (clock st) owner repo release) as [content ->].
    set (st1 := emit (ELlmCall owner repo release) (tick st)).
    unfold bind at 1.
    destruct (send_notification_run w (recipient_email self) owner repo
                release (strip_fences content) st1)
      as (sent & evs1 & Hev & _ & Htr & Hcalls & _).
    unfold eval, exec in *.
    destruct (send_notification w (recipient_email self) owner repo release
                (strip_fences content) st1) as [res st2].
    simpl in Hev, Htr. subst res.
    destruct (IH st2) as (st3 & evs2 & Hrun & Htr2 & Hcalls2).
    exists st3, (ELlmCall owner repo release
                 :: EToolCall (mkEmail (recipient_email self) owner repo release
                                 (strip_fences (strip_fences content)))
                 :: evs1 ++ evs2).
    split; [exact Hrun|]. split.
    + rewrite Htr2, Htr. subst st1. simpl. rewrite <- !app_assoc. reflexivity.
    + change (ELlmCall owner repo release
              :: EToolCall (mkEmail (recipient_email self) owner repo release
                              (strip_fences (strip_fences content)))
              :: evs1 ++ evs2)
        with ([ELlmCall owner repo release;
               EToolCall (mkEmail (recipient_email self) owner repo release
                            (strip_fences (strip_fences content)))]
              ++ evs1 ++ evs2).
      rewrite !calls_app, Hcalls, Hcalls2. reflexivity.
Qed.

(** A poll cycle whose pass over the repositories returns, with a model
    client that answers strings. *)
Lemma poll_cycle_answers
    (w : World) (self : Orchestrator) (st : State) (new_releases : list NewRelease) :
  llm_answers w ->
  eval (check_all_repositories w (repositories self)) st = Ok new_releases ->
  let st1 := exec (check_all_repositories w (repositories self)) st in
  let st' := exec (poll_cycle w self) st in
  exists evs,
    eval (poll_cycle w self) st = Ok tt
    /\ trace st' = trace st1 ++ evs ++ [ESleep (check_interval self)]
    /\ calls evs
       = flat_map (fun nr => [Summarize nr; Mail (recipient_email self) nr])
           new_releases.
Proof.
  intros Hllm Hret st1 st'. subst st1 st'.
  apply check_all_returns in Hret as [Hnone ->].
  unfold eval, exec, poll_cycle, bind.
  rewrite (all_failure_None w _ st Hnone). simpl.
  destruct (all_new w (repositories self) st) as [|nr news].
  - exists []. simpl. auto.
  - destruct (notify_all_answers w self Hllm (nr :: news)
                (after_all w (repositories self) st))
      as (st2 & evs & -> & Htr & Hcalls).
    exists evs. simpl. rewrite Htr, <- app_assoc. auto.
Qed.

Lemma check_all_well_formed_source w repos st :
  well_formed_source w ->
  eval (check_all_repositories w repos) st = Ok (all_new w repos st).
Proof.
  intros Hwf. unfold eval.
  now rewrite (all_failure_None w repos st (all_failure_well_formed_source w repos Hwf st)).
Qed.

(** X13. When the release source answers well-formed records and the model
    client always answers a string, a poll cycle returns normally and,
    after its pass over the repositories, makes for each reported release,
    in the reported order, one Summarizer call followed by one Notifier call
    to the configured recipient, and nothing else but logs of failed mails;
    it ends with the sleep. *)
Theorem poll_cycle_summarizes_and_mails_each_new_release
    (w : World) (self : Orchestrator) (st : State) :
  well_formed_source w ->
  llm_answers w ->
  let st1 := exec (check_all_repositories w (repositories self)) st in
  let st' := exec (poll_cycle w self) st in
  exists new_releases evs,
    eval (check_all_repositories w (repositories self)) st = Ok new_releases
    /\ eval (poll_cycle w self) st = Ok tt
    /\ trace st' = trace st1 ++ evs ++ [ESleep (check_interval self)]
    /\ calls evs
       = flat_map (fun nr => [Summarize nr; Mail (recipient_email self) nr])
           new_releases.
Proof.
  intros Hwf Hllm st1 st'. subst st1 st'.
  pose proof (check_all_well_formed_source w (repositories self) st Hwf) as Hret.
  destruct (poll_cycle_answers w self st _ Hllm Hret) as (evs & H).
  eauto.
Qed.


Lemma while_true_answers w self :
  well_formed_source w -> llm_answers w ->
  forall n st, eval (while_true w self n) st = Ok tt.
Proof.
  intros Hwf Hllm. induction n as [|n IH]; intros st; [reflexivity|].
  simpl. unfold eval, bind.
  pose proof (check_all_well_formed_source w (repositories self) st Hwf) as Hret.
  destruct (poll_cycle_answers w self st _ Hllm Hret) as (evs & Hok & _).
  unfold eval in Hok. destruct (poll_cycle w self st) as [res st1].
  simpl in Hok. subst res. apply IH.
Qed.

(** X15. With the write of the history file taken to succeed, monitoring
    keeps running as long as its surroundings behave: when the release
    source answers well-formed records, the workbench starts and the model
    client always answers a string, [start_monitoring] is still running
    after any number of poll cycles. When an exception leaves it, it does so
    from [initialize] or from entering the workbench, or else from the loop,
    and then the last effects are the closing of the model client by the
    [finally] clause and the stopping of the workbench. *)
Theorem start_monitoring_keeps_running
    (w : World) (self : Orchestrator) (n : nat) (st : State) :
  let st1 := exec (initialize w self) st in
  (well_formed_source w -> llm_answers w ->
   (forall t, workbench_start w t = None) ->
   eval (start_monitoring w self n) st = Ok tt)
  /\ (forall e,
        eval (start_monitoring w self n) st = Raise e ->
        eval (initialize w self) st = Raise e
        \/ (eval (initialize w self) st = Ok tt
            /\ workbench_start w (clock st1) = Some e)
        \/ (eval (initialize w self) st = Ok tt
            /\ workbench_start w (clock st1) = None
            /\ eval (while_true w self n) st1 = Raise e
            /\ exists tr, trace (exec (start_monitoring w self n) st)
                          = tr ++ [EClosed; EWorkbenchStopped])).
Proof.
  intros st1. subst st1.
  unfold eval, exec, start_monitoring, bind, workbench_enter.
  split.
  - intros Hwf Hllm Hwb. rewrite initialize_run.
    rewrite (all_failure_well_formed_source w _ Hwf st). rewrite Hwb.
    unfold on_exception, try_except.
    set (st1 := exec (_save_history w) (after_all w (repositories self) st)).
    pose proof (while_true_answers w self Hwf Hllm n st1) as Hok.
    unfold eval in Hok. destruct (while_true w self n st1) as [res st2].
    simpl in Hok. now subst res.
  - intros e. destruct (initialize w self st) as [[[]|e0] st1]; simpl.
    + destruct (workbench_start w (clock st1)) as [e1|]; simpl.
      * intros H. injection H as ->. right. left. auto.
      * unfold on_exception, try_except, bind, log, raise.
        destruct (while_true w self n st1) as [[[]|e1] st2]; simpl;
          [discriminate|].
        intros H. injection H as ->. right. right.
        repeat split. exists (trace st2). now rewrite <- app_assoc.
    + intros H. injection H as ->. now left.
Qed.

(** X16. Loading reads back what saving wrote: if the history file format
    reads the dump of the current history back as that history, then after
    [_save_history] a call of [_load_history] returns the current history
    and logs nothing, and [GitHubReleaseAgent.__init__] leaves the state as
    it is. *)
Theorem save_then_load_round_trip (w : World) (st : State) :
  parse_history w (dump_history w (history st)) = Ok (history st) ->
  let st1 := exec (_save_history w) st in
  _load_history w st1 = (Ok (history st), st1)
  /\ agent_init w st1 = (Ok tt, st1).
Proof.
  intros Hrt st1.
  assert (Hload : _load_history w st1 = (Ok (history st), st1)).
  { unfold _load_history, bind, path_exists, try_except, read_file, lift, ret.
    subst st1. simpl. now rewrite Hrt. }
  split; [exact Hload|].
  unfold agent_init, bind. rewrite Hload. reflexivity.
Qed.

(** ** The command line *)

Lemma py_split_nonempty sep s : py_split sep s <> [].
Proof.
  destruct s as [|c s]; simpl; [discriminate|].
  destruct (Ascii.eqb c sep); [discriminate|].
  destruct (py_split sep s); discriminate.
Qed.

Lemma length_py_split sep s : length (py_split sep s) = S (py_count sep s).
Proof.
  induction s as [|c s IH]; simpl; [reflexivity|].
  destruct (Ascii.eqb c sep); simpl; [now rewrite IH|].
  destruct (py_split sep s) as [|p ps] eqn:E; [now apply py_split_nonempty in E|].
  exact IH.
Qed.

Lemma py_split_one sep s r :
  py_split sep s = [r] -> s = r /\ py_count sep r = O.
Proof.
  intros H. pose proof (length_py_split sep s) as Hl. rewrite H in Hl.
  simpl in Hl. assert (Hc : py_count sep s = O) by lia. clear Hl.
  revert r H. induction s as [|c s IH]; intros r H; simpl in *.
  - injection H as <-. auto.
  - destruct (Ascii.eqb c sep) eqn:Hcs; [discriminate|].
    destruct (py_split sep s) as [|p ps] eqn:E; [now apply py_split_nonempty in E|].
    injection H as <- ->. destruct (IH Hc p eq_refl) as [-> Hp].
    split; [reflexivity|]. simpl. now rewrite Hcs.
Qed.

Lemma py_split_two sep s o r :
  py_split sep s = [o; r] ->
  s = (o ++ String sep r)%string /\ py_count sep o = O /\ py_count sep r = O.
Proof.
  revert o. induction s as [|c s IH]; intros o H; simpl in *; [discriminate|].
  destruct (Ascii.eqb c sep) eqn:Hcs.
  - injection H as <- H. apply py_split_one in H as [-> Hr].
    apply Ascii.eqb_eq in Hcs as ->. auto.
  - destruct (py_split sep s) as [|p ps] eqn:E; [discriminate|].
    injection H as <- ->. destruct (IH p eq_refl) as (-> & Hp & Hr).
    split; [reflexivity|]. split; [|exact Hr]. simpl. now rewrite Hcs.
Qed.

Lemma parse_repositories_from_acc repos : forall acc,
  parse_repositories_from repos acc = acc ++ parse_repositories repos.
Proof.
  unfold parse_repositories.
  induction repos as [|s rest IH]; intros acc; simpl; [now rewrite app_nil_r|].
  destruct (py_split "/" s) as [|o [|r [|x xs]]]; try apply IH.
  rewrite IH, (IH [_]). now rewrite <- app_assoc.
Qed.

Lemma parse_repositories_cons s rest :
  parse_repositories (s :: rest)
  = match py_split "/" s with
    | [owner; repo] => (owner, repo) :: parse_repositories rest
    | _ => parse_repositories rest
    end.
Proof.
  unfold parse_repositories at 1. simpl.
  destruct (py_split "/" s) as [|o [|r [|x xs]]]; try reflexivity.
  now rewrite parse_repositories_from_acc.
Qed.

Lemma parse_repositories_filter (repos : list string) :
  map format_repository (parse_repositories repos)
  = List.filter (fun s => Nat.eqb (py_count "/" s) 1) repos
  /\ forall owner repo,
       (owner, repo) ∈ parse_repositories repos ->
       py_count "/" owner = O /\ py_count "/" repo = O.
Proof.
  induction repos as [|s rest [IH1 IH2]]; [split; [reflexivity|]|].
  { intros o r H. inversion H. }
  rewrite parse_repositories_cons. simpl.
  pose proof (length_py_split "/" s) as Hl.
  destruct (py_split "/" s) as [|o [|r [|x xs]]] eqn:E; simpl in Hl.
  - discriminate.
  - replace (py_count "/" s) with 0%nat by lia. simpl. auto.
  - replace (py_count "/" s) with 1%nat by lia. simpl.
    apply py_split_two in E as (-> & Ho & Hr). split.
    + unfold format_repository at 1. simpl. now rewrite IH1.
    + intros o' r' Hin. apply elem_of_cons in Hin as [Heq|Hin]; [|now apply IH2].
      injection Heq as -> ->. auto.
  - replace (py_count "/" s =? 1)%nat with false
      by (symmetry; apply Nat.eqb_neq; lia).
    auto.
Qed.

(** X17. The loop of [main] keeps exactly the arguments with one slash, in
    order: formatted back as owner/repo, the parsed repositories are the
    arguments that contain exactly one slash; and neither part of a parsed
    repository contains a slash (either part may be empty). *)
Theorem parse_repositories_keeps_entries_with_one_slash (repos : list string) :
  map format_repository (parse_repositories repos)
  = List.filter (fun s => Nat.eqb (py_count "/" s) 1) repos
  /\ forall owner repo,
       (owner, repo) ∈ parse_repositories repos ->
       py_count "/" owner = O /\ py_count "/" repo = O.
Proof. exact (parse_repositories_filter repos). Qed.

(** X18. When no argument contains exactly one slash, [main] returns
    without loading the history or monitoring: the state is unchanged. *)
Theorem main_without_valid_repository_does_nothing
    (w : World) (args : Args) (n : nat) (st : State) :
  (forall s, s ∈ args_repos args -> py_count "/" s <> 1%nat) ->
  main w args n st = (Ok tt, st).
Proof.
  intros Hall. unfold main.
  destruct (parse_repositories_filter (args_repos args))
    as [Heq _].
  assert (Hnil : forall l, (forall s, s ∈ l -> py_count "/" s <> 1%nat) ->
                 List.filter (fun s => Nat.eqb (py_count "/" s) 1) l = []).
  { induction l as [|s rest IH]; intros Hl; [reflexivity|]. simpl.
    replace (py_count "/" s =? 1)%nat with false
      by (symmetry; apply Nat.eqb_neq, Hl; left).
    apply IH. intros s' Hs'. apply Hl. now right. }
  rewrite (Hnil _ Hall) in Heq. destruct (parse_repositories (args_repos args)); [reflexivity|].
  discriminate.
Qed.

Example split_examples :
  py_split "/" "microsoft/autogen" = ["microsoft"; "autogen"]%string
  /\ py_split "/" "autogen" = ["autogen"%string]
  /\ py_split "/" "" = [""%string]
  /\ py_split "/" "a//b" = ["a"; ""; "b"]%string
  /\ parse_repositories ["microsoft/autogen"; "bad"; "a/b/c"; "/"; "acme/widget"]%string
     = [("microsoft", "autogen"); ("", ""); ("acme", "widget")]%string.
Proof. repeat split. Qed.

(** ** The properties on the scenario *)

Lemma nonempty_fetch_updates_last_check_witness :
  let w := Scenario.world [Scenario.R1] in
  let st := Scenario.knows_R1 in
  let st' := exec (check_for_new_releases w "acme" "widget") st in
  eval (check_for_new_releases w "acme" "widget") st = Ok []
  /\ last_check (history st) "acme" "widget" = Some "2024-01-01T00:00:00"%string
  /\ last_check (history st') "acme" "widget" = Some "2024-06-01T12:00:00"%string
  /\ clock st' = 2%nat.
Proof.
  split; [reflexivity|]. split; [reflexivity|].
  apply (nonempty_fetch_updates_last_check
           (Scenario.world [Scenario.R1]) "acme" "widget" Scenario.knows_R1).
  discriminate.
Defined.

Lemma check_for_new_releases_keeps_other_entries_witness :
  let w := Scenario.world [Scenario.R3] in
  let other := RepoConfig.mk "other" "repo" None [release_of Scenario.R5] in
  let st := Scenario.state_of
              [other; RepoConfig.mk "acme" "widget" None [release_of Scenario.R1]] in
  let st' := exec (check_for_new_releases w "acme" "widget") st in
  exists rc',
    ReleaseHistory.repositories (history st') !! 0%nat = Some rc'
    /\ RepoConfig.owner rc' = "other"%string
    /\ RepoConfig.repo rc' = "repo"%string
    /\ [release_of Scenario.R5] `prefix_of` RepoConfig.releases rc'
    /\ (~ has_key "acme" "widget" other -> rc' = other).
Proof.
  apply (check_for_new_releases_keeps_other_entries
           (Scenario.world [Scenario.R3]) "acme" "widget"
           (Scenario.state_of
              [RepoConfig.mk "other" "repo" None [release_of Scenario.R5];
               RepoConfig.mk "acme" "widget" None [release_of Scenario.R1]])
           0%nat
           (RepoConfig.mk "other" "repo" None [release_of Scenario.R5])).
  reflexivity.
Defined.

Lemma unique_keys_invariant_witness :
  let w := Scenario.release_102_appears in
  unique_keys (history Scenario.knows_R1)
  /\ forall n,
       unique_keys
         (history (exec (start_monitoring w Scenario.self n) Scenario.knows_R1)).
Proof.
  assert (Hu : unique_keys (history Scenario.knows_R1)).
  { apply NoDup_cons. split; [intros H; inversion H | apply NoDup_nil_2]. }
  split; [exact Hu|].
  apply (unique_keys_invariant Scenario.release_102_appears Scenario.self
           Scenario.knows_R1 Hu).
Defined.

Lemma distinct_fetched_ids_keep_known_ids_distinct_witness :
  let w := Scenario.world [Scenario.R5; Scenario.R1; Scenario.R3] in
  let st := Scenario.knows_R1 in
  let st' := exec (check_for_new_releases w "acme" "widget") st in
  known_ids (history st') "acme" "widget" = [1; 5; 3]
  /\ NoDup (known_ids (history st') "acme" "widget").
Proof.
  split; [reflexivity|].
  apply (distinct_fetched_ids_keep_known_ids_distinct
           (Scenario.world [Scenario.R5; Scenario.R1; Scenario.R3])
           "acme" "widget" Scenario.knows_R1).
  - apply NoDup_singleton.
  - change (NoDup [Id 5; Id 1; Id 3]). repeat (apply NoDup_cons; split);
      try apply NoDup_nil_2; intros H;
      repeat (apply elem_of_cons in H as [H|H]; [discriminate|]); inversion H.
Defined.

Lemma poll_cycle_summarizes_and_mails_each_new_release_witness :
  let w := Scenario.world [Scenario.R5; Scenario.R1; Scenario.R3] in
  let st := Scenario.knows_R1 in
  let st1 := exec (check_all_repositories w (repositories Scenario.self)) st in
  let st' := exec (poll_cycle w Scenario.self) st in
  well_formed_source w
  /\ llm_answers w
  /\ exists new_releases evs,
       eval (check_all_repositories w (repositories Scenario.self)) st
       = Ok new_releases
       /\ eval (poll_cycle w Scenario.self) st = Ok tt
       /\ trace st' = trace st1 ++ evs ++ [ESleep (check_interval Scenario.self)]
       /\ calls evs
          = flat_map
              (fun nr => [Summarize nr; Mail (recipient_email Scenario.self) nr])
              new_releases.
Proof.
  assert (Hwf : well_formed_source
                  (Scenario.world [Scenario.R5; Scenario.R1; Scenario.R3])).
  { intros t owner repo rd. unfold source_at. simpl.
    destruct (String.eqb owner "acme" && String.eqb repo "widget");
      intros Hin; [|inversion Hin].
    repeat (apply elem_of_cons in Hin as [->|Hin]; [reflexivity|]).
    inversion Hin. }
  assert (Hllm : llm_answers
                   (Scenario.world [Scenario.R5; Scenario.R1; Scenario.R3]))
    by (intros t owner repo release; now eexists).
  split; [exact Hwf|]. split; [exact Hllm|].
  apply (poll_cycle_summarizes_and_mails_each_new_release
           (Scenario.world [Scenario.R5; Scenario.R1; Scenario.R3])
           Scenario.self Scenario.knows_R1 Hwf Hllm).
Defined.

(** The cycle of that witness, evaluated. *)
Example poll_cycle_calls_evaluated :
  let w := Scenario.world [Scenario.R5; Scenario.R1; Scenario.R3] in
  let r5 := ("acme"%string, "widget"%string, release_of Scenario.R5) in
  let r3 := ("acme"%string, "widget"%string, release_of Scenario.R3) in
  calls (trace (exec (poll_cycle w Scenario.self) Scenario.knows_R1))
  = [Summarize r5; Mail "ops@example.org" r5;
     Summarize r3; Mail "ops@example.org" r3].
Proof. reflexivity. Qed.


(** Release 102 appears after the start and the model client answers no
    string: monitoring is left by the assertion, after the client was
    closed and the workbench stopped. *)
Example start_monitoring_left_by_assertion :
  let w := Scenario.release_102_appears_llm_not_str in
  let st' := exec (start_monitoring w Scenario.self 2) Scenario.fresh in
  eval (start_monitoring w Scenario.self 2) Scenario.fresh = Raise AssertionError
  /\ firstn 2 (rev (trace st')) = [EWorkbenchStopped; EClosed]
  /\ known_ids (history st') "acme" "widget" = [101; 102].
Proof. repeat split. Qed.

Lemma save_then_load_round_trip_witness :
  let w := Scenario.archive_world (history Scenario.knows_R1) in
  let st1 := exec (_save_history w) Scenario.knows_R1 in
  disk Scenario.knows_R1 = NoFile
  /\ disk st1 = Content "saved"
  /\ _load_history w st1 = (Ok (history Scenario.knows_R1), st1)
  /\ agent_init w st1 = (Ok tt, st1).
Proof.
  split; [reflexivity|]. split; [reflexivity|].
  apply (save_then_load_round_trip
           (Scenario.archive_world (history Scenario.knows_R1)) Scenario.knows_R1).
  reflexivity.
Defined.

Lemma main_without_valid_repository_does_nothing_witness :
  parse_repositories (args_repos Scenario.args_without_repository) = []
  /\ main (Scenario.world [Scenario.R1]) Scenario.args_without_repository 5
       Scenario.fresh
     = (Ok tt, Scenario.fresh).
Proof.
  split; [reflexivity|].
  apply (main_without_valid_repository_does_nothing
           (Scenario.world [Scenario.R1]) Scenario.args_without_repository 5%nat
           Scenario.fresh).
  intros s Hs.
  repeat (apply elem_of_cons in Hs as [->|Hs]; [discriminate|]).
  inversion Hs.
Defined.

(** [main] with one valid argument among invalid ones: the history file is
    loaded, then monitoring starts over the one repository. *)
Example main_monitors_the_valid_repository :
  let w := Scenario.world [Scenario.R1; Scenario.R3] in
  let args := mkArgs ["bad"; "acme/widget"]%string "ops@example.org" 60 in
  let st' := exec (main w args 1) Scenario.fresh in
  eval (main w args 1) Scenario.fresh = Ok tt
  /\ known_ids (history st') "acme" "widget" = [1; 3]
  /\ calls (trace st') = [].
Proof. repeat split. Qed.
